(** * The DCI-Palestine harvesting pipeline and the name-search CLI

    A shallow embedding of the JavaScript sources of the repository:

    - [docs/index.md] (the pipeline script: [getDate],
      [getDciLinksFromLanding], [hash], [callClosedAi],
      [getAndStoreArticlesFromLinks], [getArticlesRecursively]);
    - [sites/dci-palestine.org.js] (the two earlier scripts: [getDate] with
      comma removal, [getLinksFromRoot], [getArticles]);
    - the headless script ([grab]) and the name-search CLI
      ([getNameVariations]).

    JavaScript strings are sequences of UTF-16 code units and are modelled
    as [list Z]; numbers that the code keeps integral are modelled as [Z],
    with the 32-bit wrap-around of the bit operators written out. *)

From Stdlib Require Import ZArith Lia.
From stdpp Require Import base option list strings pretty gmap.
From Equations Require Import Equations.

Open Scope Z_scope.

(** ** JavaScript strings *)

Module JS.

(** The code units of a literal written with one-byte characters. *)
Definition js (s : string) : list Z :=
  (fun a => Z.of_nat (Ascii.nat_of_ascii a)) <$> String.list_ascii_of_string s.

Definition LF : Z := 10.
Definition SPACE : Z := 32.
Definition SLASH : Z := 47.
Definition COMMA : Z := 44.
Definition HYPHEN : Z := 45.

(** [LineTerminator]: the code units the regular expression atom [.] refuses. *)
Definition isLineTerminator (c : Z) : bool :=
  (c =? 10) || (c =? 13) || (c =? 8232) || (c =? 8233).

(** The class [\s] of regular expressions, which is also what [trim] strips:
    [WhiteSpace] and [LineTerminator] of ECMAScript. *)
Definition isSpace (c : Z) : bool :=
  ((9 <=? c) && (c <=? 13)) || (c =? 32) || (c =? 160) || (c =? 5760)
  || ((8192 <=? c) && (c <=? 8202)) || (c =? 8232) || (c =? 8233)
  || (c =? 8239) || (c =? 8287) || (c =? 12288) || (c =? 65279).

Fixpoint trimStart (s : list Z) : list Z :=
  match s with
  | c :: t => if isSpace c then trimStart t else s
  | [] => []
  end.

Definition trimEnd (s : list Z) : list Z := reverse (trimStart (reverse s)).

(** [String.prototype.trim] *)
Definition trim (s : list Z) : list Z := trimEnd (trimStart s).

(** What a pending run of white space becomes under [/\s{2,}/g]: a run of
    one character does not match and stays, a longer one is replaced. *)
Definition flushRun (rep run : list Z) : list Z :=
  match run with
  | [] => []
  | [w] => [w]
  | _ => rep
  end.

(** [str.replace(/\s{2,}/g, rep)] when [dropComma] is false, and
    [str.replace(/\s{2,}|,/g, rep)] when it is true: the scan goes left to
    right, [run] holds the white space seen since the last other
    character. The alternative [,] only matches a comma; a comma ends a run
    of white space like any other character. *)
Fixpoint replaceRuns (dropComma : bool) (rep run s : list Z) : list Z :=
  match s with
  | [] => flushRun rep run
  | c :: t =>
      if isSpace c then replaceRuns dropComma rep (run ++ [c]) t
      else flushRun rep run
             ++ (if dropComma && (c =? COMMA) then rep else [c])
             ++ replaceRuns dropComma rep [] t
  end.

(** The longest prefix of [l] that is followed by a hyphen inside [l]:
    what the greedy [.*] keeps after backing off to satisfy [(?=-)]. *)
Fixpoint upToLastHyphen (l : list Z) : option (list Z) :=
  match l with
  | [] => None
  | c :: t =>
      match upToLastHyphen t with
      | Some p => Some (c :: p)
      | None => if c =? HYPHEN then Some [] else None
      end
  end.

(** The characters [.*] can take from the start of [s]. *)
Fixpoint dotStar (s : list Z) : list Z :=
  match s with
  | c :: t => if isLineTerminator c then [] else c :: dotStar t
  | [] => []
  end.

(** [/.*(?=-)/.exec(s)]: the match at the leftmost position that has one;
    [None] is the [null] of a failed match. *)
Fixpoint execFirstLine (s : list Z) : option (list Z) :=
  match s with
  | [] => None
  | _ :: t =>
      match upToLastHyphen (dotStar s) with
      | Some m => Some m
      | None => execFirstLine t
      end
  end.

(** [str.split(sep)] for a separator of one code unit: [cur] is the piece
    being read. The result always has at least one piece. *)
Fixpoint splitOn (sep : Z) (cur s : list Z) : list (list Z) :=
  match s with
  | [] => [cur]
  | c :: t => if c =? sep then cur :: splitOn sep [] t
              else splitOn sep (cur ++ [c]) t
  end.

Definition split (sep : Z) (s : list Z) : list (list Z) := splitOn sep [] s.

(** [arr.join(sep)] for a separator of one code unit. *)
Fixpoint join (sep : Z) (l : list (list Z)) : list Z :=
  match l with
  | [] => []
  | [x] => x
  | x :: t => x ++ sep :: join sep t
  end.

(** [s.startsWith(w)] and [s.includes(w)] *)
Fixpoint startsWith (s w : list Z) : bool :=
  match w, s with
  | [], _ => true
  | _ :: _, [] => false
  | a :: w', b :: s' => (a =? b) && startsWith s' w'
  end.

Fixpoint includes (s w : list Z) : bool :=
  startsWith s w ||
  match s with
  | [] => false
  | _ :: t => includes t w
  end.

(** [arr.slice(-2)] *)
Definition sliceLast2 {A} (l : list A) : list A := drop (length l - 2)%nat l.

(** [ToInt32] on an integral number. *)
Definition wrap32 (z : Z) : Z := (z + 2 ^ 31) mod 2 ^ 32 - 2 ^ 31.

(** [a << n] and [a & b] of JavaScript: the operands go through [ToInt32]
    and so does the result. *)
Definition shl32 (a n : Z) : Z := wrap32 (Z.shiftl (wrap32 a) n).
Definition and32 (a b : Z) : Z := wrap32 (Z.land (wrap32 a) (wrap32 b)).

End JS.

Import JS.

(** ** docs/index.md: the pipeline script, pure part *)

(** [getDate] of the pipeline script. *)
Definition getDate (dateString : list Z) : list Z :=
  let clean := replaceRuns false [] [] dateString in
  let dateMatch := execFirstLine clean in
  match dateMatch with
  | Some m => trim m
  | None => []
  end.

(** One turn of the loop of [hash]. *)
Definition hash_step (hash char : Z) : Z :=
  let hash := shl32 hash 5 - hash + char in
  and32 hash hash.

(** [hash]: [charCodeAt(i)] for [i] below the length is the [i]-th code
    unit, so the loop is a left fold over the code units. *)
Definition hash (str : list Z) : Z := fold_left hash_step str 0.

(** [clean], used on the text of a detail page. *)
Definition clean (str : list Z) : list Z := trim (replaceRuns false [SPACE] [] str).

(** The keyword list of the pipeline script. *)
Definition keywords : list (list Z) :=
  js <$> ["shoot"; "shot"; "kill"; "murder"; "martyr"; "fire"; "weapon";
          "dead"; "died"; "death"; "injur"; "wound"; "hurt"; "casualt";
          "fatal"; "bomb"; "explo"; "strike"; "attack"; "viol"]%string.

(** ** The name-search CLI *)

Module NameSearch.

(** [split] returns at least one piece, so [names[0]] and
    [names[names.length - 1]] are strings. *)
Definition getNameVariations (fullName : list Z) : list (list Z) :=
  let names := split SPACE fullName in
  if (length names =? 1)%nat then [fullName]
  else
    [ default [] (last names);
      join SPACE (sliceLast2 names);
      default [] (head names) ++ SPACE :: default [] (last names);
      default [] (head names);
      fullName ].

End NameSearch.

(** ** The world outside the scripts *)

(** One record of the [results] array the extraction call is asked for. *)
Record Victim := {
  v_name : list Z; v_dod : list Z; v_location : list Z; v_age : list Z;
  v_sex : option (list Z) }.

(** The value bound to [victims]: the [results] member of the parsed
    arguments of the tool call ([Undefined] when they have none: a number,
    an array, an object with other members), or [null]. A [results] that
    is there is taken to be [null] or an array, as the call asks for. *)
Inductive Victims := Undefined | Null | Results (l : list Victim).

(** [if (victims)]: an array, even an empty one, is truthy. *)
Definition truthy (v : Victims) : bool :=
  match v with Results _ => true | _ => false end.

(** What the exchange with the completion endpoint can come to in
    [callClosedAi]. *)
Inductive Response :=
| NetworkError                 (* [fetch] rejects *)
| HttpError                    (* [response.ok] is false *)
| BadBody                      (* the body is not JSON or has no
                                  [choices[0].message.tool_calls[0]], or its [arguments]
                                  are not JSON or parse to [null]: the handler throws *)
| ToolCall (results : Victims) (* the arguments parse to a value other than [null];
                                  [results] is its member of that name *).

(** What the script reads of one [.featured] element of a listing page. *)
Record Article := {
  (* [article.querySelector('a')?.getAttribute('href')]: no anchor, an
     anchor without [href], or the attribute *)
  anchorHref : option (option (list Z));
  (* [article?.querySelector('h3')?.textContent] *)
  h3Text : option (list Z);
  (* [article.getElementsByClassName('date')[0]?.firstChild?.textContent] *)
  dateText : option (list Z) }.

(** The two call sites of [fetchHTML]. *)
Inductive Request :=
| ListingPage (page : Z)       (* [`${source}?page=${page}`] *)
| Detail (link : list Z).

(** The files the pipeline reads and writes. The five path templates are
    injective in their holes and no two of them produce the same path, so a
    path is kept as its template and holes. *)
Inductive Path :=
| HtmlFile (dir : list Z) (hashed : Z)   (* [`${dir}/${hashed}.html`] *)
| MetaFile (dir : list Z) (hashed : Z)   (* [`${dir}/${hashed}.json`] *)
| PageFile (page : Z)     (* [`./sources/${domain}/${article}?page=${page}.html`] *)
| PageJson (page : Z)     (* [`./sources/${domain}/page_${page}.json`] *)
| AllJson.                (* [`./sources/${domain}/all.json`] *)

(** What the process does to the outside, in order. *)
Inductive IO :=
| Fetch (r : Request)
| Call (text : list Z)
| Write (p : Path).

(** The runtime and the outside world: the parts of the pipeline that are
    not code of the scripts. *)
Class Runtime := {
  (* [new Date(s).getTime()]; [None] is NaN *)
  dateTime : list Z -> option Z;
  (* [`${year}/${month}`] of [new Date(s)], with [getFullYear] and
     [toLocaleString('default', { month: 'long' })] *)
  dateDir : list Z -> list Z;
  (* [String.prototype.toLowerCase] *)
  toLowerCase : list Z -> list Z;
  (* [new JSDOM(html)] and [querySelectorAll('.featured')] *)
  featured : list Z -> list Article;
  (* [new JSDOM(html)], scripts and styles removed,
     [querySelector('.content-box')?.textContent] *)
  contentBox : list Z -> option (list Z);
  (* what [fetchHTML] returns for a request: the source is a function of
     the request, empty content included *)
  web : Request -> list Z;
  (* the completion endpoint; it may answer differently each time, so the
     answer depends on everything the process did so far *)
  openai : list IO -> list Z -> Response }.

(** ** docs/index.md: the pipeline script, effects *)

(** [{ link, headline, date }] *)
Record Payload := {
  p_link : list Z; p_headline : option (list Z); p_date : list Z }.

(** [{ headline, date, link, htmlFile, victims }]: an entry of the page
    results and the content of a meta file. [JSON.stringify] leaves a field
    out when it is [undefined] and [JSON.parse] reads a missing field as
    [undefined], so a record is stored as it is. *)
Record Rec := {
  r_headline : list Z; r_date : list Z; r_link : list Z;
  r_htmlFile : list Z * Z; r_victims : Victims }.

(** The files. Reads of a missing file throw. [mkdir] with [recursive]
    succeeds, and so does a write into a directory that is there; a write
    into a directory that is not there throws (ENOENT). The year and month
    directory of a meta file and its html file is made before every write
    into it. The page files, the page results and the aggregate are in
    [`./sources/${domain}`], which is made only when a page is processed:
    [sourcesDir] says whether this directory is there when it holds no
    file. A meta file that does not parse as JSON behaves in
    [getAndStoreArticlesFromLinks] like a record whose [victims] is
    [undefined]. *)
Record Disk := {
  metaFiles : gmap (list Z * Z) Rec;
  htmlFiles : gmap (list Z * Z) (list Z);
  sourcesDir : bool;
  pageFiles : gmap Z (list Z);
  pageJson : gmap Z (list Rec);
  allJson : option (list Rec) }.

(** The map holds a file. *)
Definition holdsFile {A} (m : gmap Z A) : bool :=
  match map_to_list m with [] => false | _ :: _ => true end.

(** The directory [`./sources/${domain}`] is there: it was made, or it
    holds a file. *)
Definition dirExists (d : Disk) : bool :=
  sourcesDir d || holdsFile (pageFiles d) || holdsFile (pageJson d)
  || match allJson d with Some _ => true | None => false end.

(** The process: the module variable [done], the files, and the trace. *)
Record State := { done : bool; disk : Disk; trace : list IO }.

Inductive Res (A : Type) := Val (a : A) | Throw.
Arguments Val {A} a.
Arguments Throw {A}.

(** Computations of the scripts: they change the state and return or throw. *)
Definition M (A : Type) : Type := State -> Res A * State.

Definition ret {A} (a : A) : M A := fun s => (Val a, s).
Definition throw {A} : M A := fun s => (Throw, s).
Definition bind {A B} (m : M A) (k : A -> M B) : M B :=
  fun s => match m s with
           | (Val a, s') => k a s'
           | (Throw, s') => (Throw, s')
           end.
Definition tryCatch {A} (m h : M A) : M A :=
  fun s => match m s with
           | (Val a, s') => (Val a, s')
           | (Throw, s') => h s'
           end.

Notation "x <- m ;; k" := (bind m (fun x => k))
  (at level 100, m at next level, right associativity).
Notation "m ;;; k" := (bind m (fun _ => k))
  (at level 100, right associativity).

(** [arr.reduce(f, init)] with a callback that has effects; the async
    callback of [getAndStoreArticlesFromLinks] awaits the accumulator first,
    so its turns run one after the other as well. *)
Fixpoint reduceM {A B} (f : B -> A -> M B) (l : list A) (acc : B) : M B :=
  match l with
  | [] => ret acc
  | x :: t => acc' <- f acc x ;; reduceM f t acc'
  end.

Definition setDone : M unit :=
  fun s => (Val tt, {| done := true; disk := disk s; trace := trace s |}).

Definition emit (e : IO) : M unit :=
  fun s => (Val tt, {| done := done s; disk := disk s; trace := trace s ++ [e] |}).

Definition onDisk (f : Disk -> Disk) : M unit :=
  fun s => (Val tt, {| done := done s; disk := f (disk s); trace := trace s |}).

(** [promises.mkdir(dir, { recursive: true })] before the write of the
    html file is part of the write. *)
Definition writeHtmlFile (k : list Z * Z) (html : list Z) : M unit :=
  onDisk (fun d => {| metaFiles := metaFiles d;
                      htmlFiles := <[k := html]> (htmlFiles d);
                      sourcesDir := sourcesDir d;
                      pageFiles := pageFiles d; pageJson := pageJson d;
                      allJson := allJson d |}) ;;;
  emit (Write (HtmlFile k.1 k.2)).

Definition writeMetaFile (k : list Z * Z) (r : Rec) : M unit :=
  onDisk (fun d => {| metaFiles := <[k := r]> (metaFiles d);
                      htmlFiles := htmlFiles d;
                      sourcesDir := sourcesDir d;
                      pageFiles := pageFiles d; pageJson := pageJson d;
                      allJson := allJson d |}) ;;;
  emit (Write (MetaFile k.1 k.2)).

(** [promises.mkdir(dir, { recursive: true })] with [dir] the directory
    [`./sources/${domain}`]. *)
Definition mkdirSources : M unit :=
  onDisk (fun d => {| metaFiles := metaFiles d; htmlFiles := htmlFiles d;
                      sourcesDir := true;
                      pageFiles := pageFiles d; pageJson := pageJson d;
                      allJson := allJson d |}).

(** [promises.writeFile] of a file of [`./sources/${domain}`]: it throws
    when the directory is not there, and then nothing is written. *)
Definition writeInSources (f : Disk -> Disk) (p : Path) : M unit :=
  fun s => if dirExists (disk s) then (onDisk f ;;; emit (Write p)) s
           else (Throw, s).

Definition writePageFile (page : Z) (html : list Z) : M unit :=
  writeInSources
    (fun d => {| metaFiles := metaFiles d; htmlFiles := htmlFiles d;
                 sourcesDir := sourcesDir d;
                 pageFiles := <[page := html]> (pageFiles d);
                 pageJson := pageJson d; allJson := allJson d |})
    (PageFile page).

Definition writePageJson (page : Z) (rs : list Rec) : M unit :=
  writeInSources
    (fun d => {| metaFiles := metaFiles d; htmlFiles := htmlFiles d;
                 sourcesDir := sourcesDir d;
                 pageFiles := pageFiles d;
                 pageJson := <[page := rs]> (pageJson d);
                 allJson := allJson d |})
    (PageJson page).

(** The aggregate is written with no [mkdir] before it. *)
Definition writeAllJson (rs : list Rec) : M unit :=
  writeInSources
    (fun d => {| metaFiles := metaFiles d; htmlFiles := htmlFiles d;
                 sourcesDir := sourcesDir d;
                 pageFiles := pageFiles d; pageJson := pageJson d;
                 allJson := Some rs |})
    AllJson.

(** [promises.readFile(path, 'utf8')] *)
Definition readFile {A} (get : Disk -> option A) : M A :=
  fun s => match get (disk s) with
           | Some x => (Val x, s)
           | None => (Throw, s)
           end.

(** A new process on the files an earlier one left: the module starts
    with [let done = false]. *)
Definition restart (s : State) : State :=
  {| done := false; disk := disk s; trace := [] |}.

Definition root : list Z :=
  js "https://www.dci-palestine.org/tags/fatalities_and_injuries".

(** [root.split('/').slice(0, 3).join('/')] *)
Definition apex : list Z := join SLASH (take 3 (split SLASH root)).

(** The string [+] makes of [_link?.getAttribute('href')]. *)
Definition hrefString (h : option (option (list Z))) : list Z :=
  match h with
  | None => js "undefined"
  | Some None => js "null"
  | Some (Some x) => x
  end.

(** [a > b] on numbers: false as soon as one side is NaN. *)
Definition numGt (a b : option Z) : bool :=
  match a, b with
  | Some x, Some y => y <? x
  | _, _ => false
  end.

Section Pipeline.
Context `{Runtime}.

(** [fetchHTML(url)]: errors are caught inside and give the empty string. *)
Definition fetchHTML (r : Request) : M (list Z) :=
  emit (Fetch r) ;;; ret (web r).

(** [new Date('October 1, 2023').getTime()] *)
Definition cutoff : option Z := dateTime (js "October 1, 2023").

(** The test of the callback of [getDciLinksFromLanding] on a date string. *)
Definition relevant (date : list Z) : bool := numGt (dateTime date) cutoff.

(** The callback of the [reduce] of [getDciLinksFromLanding].
    [getDate(undefined)] throws a [TypeError]. *)
Definition landingStep (acc : list Payload) (article : Article) : M (list Payload) :=
  let headline := trim <$> h3Text article in
  let dateDirty := dateText article in
  let link := apex ++ hrefString (anchorHref article) in
  date <- match dateDirty with
          | Some d => ret (getDate d)
          | None => throw
          end ;;
  if relevant date then
    ret (acc ++ [ {| p_link := link; p_headline := headline; p_date := date |} ])
  else
    setDone ;;; ret acc.

Definition getDciLinksFromLanding (html : list Z) : M (list Payload) :=
  reduceM landingStep (featured html) [].

(** [callClosedAi]: everything that fails is caught or logged and leaves
    the result [undefined], here [None]. *)
Definition callClosedAi (text : list Z) : M (option Victims) :=
  fun s =>
    let answer :=
      match openai (trace s) text with
      | ToolCall results => Some results
      | NetworkError | HttpError | BadBody => None
      end in
    (Val answer, {| done := done s; disk := disk s; trace := trace s ++ [Call text] |}).

(** [htmlToText]: [clean(undefined)] throws when there is no content box. *)
Definition htmlToText (html : list Z) : M (list Z) :=
  match contentBox html with
  | Some text => ret (clean text)
  | None => throw
  end.

Definition getPageAndConvertToData (html : list Z) : M (option Victims) :=
  text <- htmlToText html ;;
  callClosedAi text.

(** [kws.some((word) => headline.toLowerCase().includes(word))] *)
Definition someKeyword (kws : list (list Z)) (headline : list Z) : bool :=
  existsb (fun word => includes (toLowerCase headline) word) kws.

(** The callback of the [reduce] of [getAndStoreArticlesFromLinks], for the
    keyword list [kws]. With [headline] undefined the test throws at the
    first keyword; [some] on an empty list calls nothing and is false. *)
Definition storeStep (kws : list (list Z)) (_acc : list Rec) (payload : Payload)
  : M (list Rec) :=
  let link := p_link payload in
  let date := p_date payload in
  match p_headline payload with
  | None => match kws with [] => ret _acc | _ :: _ => throw end
  | Some headline =>
      if someKeyword kws headline then
        let hashed := hash headline in
        let dir := dateDir date in
        let htmlFile := (dir, hashed) in
        let metaFile := (dir, hashed) in
        tryCatch
          (file <- readFile (fun d => metaFiles d !! metaFile) ;;
           let victims := r_victims file in
           if truthy victims then
             ret (_acc ++ [ {| r_headline := headline; r_date := date;
                               r_link := link; r_htmlFile := htmlFile;
                               r_victims := victims |} ])
           else throw)
          (html <- fetchHTML (Detail link) ;;
           victims <- tryCatch
                        (data <- getPageAndConvertToData html ;;
                         ret (default Null data))
                        (ret Null) ;;
           let record := {| r_headline := headline; r_date := date;
                            r_link := link; r_htmlFile := htmlFile;
                            r_victims := victims |} in
           writeHtmlFile htmlFile html ;;;
           writeMetaFile metaFile record ;;;
           ret (_acc ++ [record]))
      else ret _acc
  end.

Definition getAndStoreArticlesFromLinksWith (kws : list (list Z))
  (links : list Payload) : M (list Rec) :=
  reduceM (storeStep kws) links [].


(** The listing page: the stored file, or else the network. *)
Definition readPage (page : Z) : M (list Z) :=
  tryCatch (readFile (fun d => pageFiles d !! page))
           (fetchHTML (ListingPage page)).

(** The body of the [if (html)] of [getArticlesRecursively], up to the
    recursive call. *)
Definition processPage (kws : list (list Z)) (page : Z) (html : list Z)
  : M (list Rec) :=
  linksForPage <- getDciLinksFromLanding html ;;
  articlesForPage <- getAndStoreArticlesFromLinksWith kws linksForPage ;;
  mkdirSources ;;;
  writePageJson page articlesForPage ;;;
  writePageFile page html ;;;
  ret articlesForPage.

(** [if (html)]: the empty string is falsy. *)
Definition nonEmpty (html : list Z) : bool :=
  match html with [] => false | _ :: _ => true end.

(** [getArticlesRecursively({ page, acc, source: root, stop })] for the
    keyword list [kws]. Page numbers are integers (exact as JavaScript
    numbers below 2^53); the one-second wait has no effect on the state.
    The recursion is on the number of pages left below [stop]. *)
Equations? getArticlesRecursivelyWith (kws : list (list Z)) (page : Z)
  (acc : list Rec) (stop : Z) (s : State) : Res (list Rec) * State
  by wf (Z.to_nat (stop + 1 - page)) lt :=
  getArticlesRecursivelyWith kws page acc stop s
    with Logic.inspect (negb (done s) && (page <=? stop)) := {
    | exist _ true Hgo =>
        match readPage page s with
        | (Val html, s1) =>
            if nonEmpty html then
              match processPage kws page html s1 with
              | (Val articlesForPage, s2) =>
                  getArticlesRecursivelyWith kws (page + 1)
                    (acc ++ articlesForPage) stop s2
              | (Throw, s2) => (Throw, s2)
              end
            else (Val acc, s1)
        | (Throw, s1) => (Throw, s1)
        end
    | exist _ false Hgo =>
        (writeAllJson acc ;;; ret acc) s }.
Proof.
  apply andb_prop in Hgo as [_ Hle]. apply Z.leb_le in Hle. lia.
Qed.

Definition getArticlesRecursively : Z -> list Rec -> Z -> State -> Res (list Rec) * State :=
  getArticlesRecursivelyWith keywords.

End Pipeline.

(** ** sites/dci-palestine.org.js: the earlier scripts *)

Module Sites.

(** [getDate] of the earlier scripts and of the headless script: commas go
    as well. *)
Definition getDate (dateString : list Z) : list Z :=
  let clean := replaceRuns true [] [] dateString in
  match execFirstLine clean with
  | Some m => trim m
  | None => []
  end.

(** The keyword list of the earlier script. *)
Definition keywords : list (list Z) :=
  js <$> ["shoot"; "shot"; "kill"; "murder"; "fire"; "weapon";
          "dead"; "died"; "death"; "injur"; "wound"; "hurt"; "casualt";
          "fatal"; "bomb"; "explo"; "strike"; "attack"; "viol"]%string.

Section Links.
Context `{Runtime}.

(** The callback of the [reduce] of [getLinksFromRoot]; [done] is a local
    variable of [getLinksFromRoot] here, carried next to the accumulator.
    [None] is the [TypeError] of [getDate(undefined)]. *)
Definition linkStep (st : list Payload * bool) (article : Article)
  : option (list Payload * bool) :=
  let (acc, done) := st in
  let headline := trim <$> h3Text article in
  let link := apex ++ hrefString (anchorHref article) in
  match dateText article with
  | None => None
  | Some dateDirty =>
      let date := getDate dateDirty in
      if numGt (dateTime date) (dateTime (js "October 1, 2023")) then
        Some (acc ++ [ {| p_link := link; p_headline := headline; p_date := date |} ], done)
      else Some (acc, true)
  end.

Fixpoint reduceLinks (l : list Article) (st : list Payload * bool)
  : option (list Payload * bool) :=
  match l with
  | [] => Some st
  | a :: t => match linkStep st a with
              | Some st' => reduceLinks t st'
              | None => None
              end
  end.

(** [getLinksFromRoot] returns the links; the flag is dropped with the
    call. *)
Definition getLinksFromRoot (html : list Z) : option (list Payload) :=
  fst <$> reduceLinks (featured html) ([], false).

End Links.
End Sites.

(** ** The headless script *)

Module Headless.

Definition months : list (list Z) :=
  js <$> ["January"; "February"; "March"; "April"; "May"; "June"; "July";
          "August"; "September"; "October"; "November"; "December"]%string.

(** The value of a digit or letter as a digit of [parseInt]. *)
Definition digitVal (c : Z) : option Z :=
  if (48 <=? c) && (c <=? 57) then Some (c - 48)
  else if (97 <=? c) && (c <=? 122) then Some (c - 87)
  else if (65 <=? c) && (c <=? 90) then Some (c - 55)
  else None.

(** The longest prefix of digits of the radix; [None] when it is empty. *)
Fixpoint digitsPrefix (radix : Z) (acc : option Z) (s : list Z) : option Z :=
  match s with
  | [] => acc
  | c :: t =>
      match digitVal c with
      | Some d => if d <? radix
                  then digitsPrefix radix (Some (default 0 acc * radix + d)) t
                  else acc
      | None => acc
      end
  end.

(** [parseInt(str)] without a radix, as an exact integer; [None] is NaN. *)
Definition parseInt (str : list Z) : option Z :=
  let s := trimStart str in
  let (sign, s) := match s with
                   | 45 :: t => (-1, t)
                   | 43 :: t => (1, t)
                   | _ => (1, s)
                   end in
  let (radix, s) := match s with
                    | 48 :: 120 :: t => (16, t)
                    | 48 :: 88 :: t => (16, t)
                    | _ => (10, s)
                    end in
  Z.mul sign <$> digitsPrefix radix None s.

(** [months.indexOf(month)] *)
Fixpoint indexOf (l : list (list Z)) (x : list Z) (i : Z) : Z :=
  match l with
  | [] => -1
  | y :: t => if decide (x = y) then i else indexOf t x (i + 1)
  end.

(** The test of the callback of the [reduce] of [grab] on the string
    [getDate] returned. [parseInt(undefined)] is NaN and
    [months.indexOf(undefined)] is -1. *)
Definition onOrAfterOctober2023 (date : list Z) : bool :=
  let parts := split SPACE date in
  let month := parts !! 0%nat in
  let year := parts !! 2%nat in
  let yearInt := year ≫= parseInt in
  numGt yearInt (Some 2023)
  || (bool_decide (yearInt = Some 2023)
      && (8 <? match month with Some m => indexOf months m 0 | None => -1 end)).

(** [{ date_string, headline, link }] as the page evaluation returns it. *)
Record Scraped := {
  date_string : option (list Z); s_headline : list Z; s_link : list Z }.

(** The [reduce] of [grab]; [None] is the [TypeError] of
    [getDate(undefined)]. There is no flag in this script. *)
Fixpoint payloads (links : list Scraped) (acc : list (list Z * list Z * list Z))
  : option (list (list Z * list Z * list Z)) :=
  match links with
  | [] => Some acc
  | l :: t =>
      match date_string l with
      | None => None
      | Some ds =>
          let date := Sites.getDate ds in
          if onOrAfterOctober2023 date
          then payloads t (acc ++ [(s_headline l, s_link l, date)])
          else payloads t acc
      end
  end.

End Headless.

(** ** A small world to run the scripts in *)

Module Demo.

(** Days between 1970-01-01 and a date of the proleptic Gregorian
    calendar. *)
Definition daysFromCivil (y m d : Z) : Z :=
  let y' := if m <=? 2 then y - 1 else y in
  let era := y' / 400 in
  let yoe := y' - era * 400 in
  let doy := (153 * (if 2 <? m then m - 3 else m + 9) + 2) / 5 + d - 1 in
  let doe := yoe * 365 + yoe / 4 - yoe / 100 + doy in
  era * 146097 + doe - 719468.

(** A string of decimal digits only. *)
Fixpoint decimalFrom (acc : Z) (s : list Z) : option Z :=
  match s with
  | [] => Some acc
  | c :: t => if (48 <=? c) && (c <=? 57) then decimalFrom (acc * 10 + (c - 48)) t
              else None
  end.

Definition decimal (s : list Z) : option Z :=
  match s with [] => None | _ :: _ => decimalFrom 0 s end.

(** The calendar date of a string of the form [Month D, YYYY] or
    [Month D YYYY], which is how the runtime reads such a string; any other
    string is an invalid date in this world. *)
Definition longDate (s : list Z) : option (Z * Z * Z) :=
  let words := List.filter nonEmpty
                 (split SPACE (List.filter (fun c => negb (c =? COMMA)) s)) in
  match words with
  | [m; d; y] =>
      let i := Headless.indexOf Headless.months m 0 in
      match decimal d, decimal y with
      | Some d, Some y =>
          if (0 <=? i) && (1 <=? d) && (d <=? 31) then Some (y, i + 1, d) else None
      | _, _ => None
      end
  | _ => None
  end.

(** Milliseconds since the epoch of the midnight that starts the date,
    the local zone being UTC. *)
Definition time (s : list Z) : option Z :=
  (fun '(y, m, d) => daysFromCivil y m d * 86400000) <$> longDate s.

Definition dir (s : list Z) : list Z :=
  match longDate s with
  | Some (y, m, _) =>
      js (pretty y) ++ SLASH :: default [] (Headless.months !! Z.to_nat (m - 1))
  | None => js "NaN/Invalid Date"
  end.

(** Lower case of the letters A to Z. *)
Definition lower (s : list Z) : list Z :=
  (fun c => if (65 <=? c) && (c <=? 90) then c + 32 else c) <$> s.

(** A source of [last] listing pages; the content of page [n] is the one
    code unit [n], which the parser reads as the articles [pages n]; a
    detail page is its own content box. *)
Definition world (last : Z) (pages : Z -> list Article)
  (answers : list IO -> list Z -> Response) : Runtime := {|
  dateTime := time;
  dateDir := dir;
  toLowerCase := lower;
  featured html := match html with [n] => pages n | _ => [] end;
  contentBox html := Some html;
  web r := match r with
           | ListingPage n => if (1 <=? n) && (n <=? last) then [n] else []
           | Detail link => js "<p>" ++ link
           end;
  openai := answers |}.

Definition article (href headline dateField : list Z) : Article :=
  {| anchorHref := Some (Some href); h3Text := Some headline;
     dateText := Some dateField |}.

(** The date field of a listing entry, as in the page of the site. *)
Definition dateField (date : string) : list Z :=
  [LF] ++ js "      " ++ js date ++ js " " ++ [LF] ++ js "     - Location:"
  ++ [LF] ++ js "      ".

Definition emptyDisk : Disk :=
  {| metaFiles := ∅; htmlFiles := ∅; sourcesDir := false;
     pageFiles := ∅; pageJson := ∅; allJson := None |}.

(** A fresh process on an empty disk: no file and no directory yet. *)
Definition fresh : State := {| done := false; disk := emptyDisk; trace := [] |}.

Definition victim (name : string) : Victim :=
  {| v_name := js name; v_dod := js "January 19, 2024";
     v_location := js "West Bank"; v_age := js "17"; v_sex := None |}.

End Demo.

(** ** The statements of the specification, for comparison *)

Module Spec.

(** The cache key in the words of the specification: start from 0 and, for
    each character, multiply by 31, add its code, keep 32 signed bits. *)
Definition classicHash (str : list Z) : Z :=
  fold_left (fun h c => wrap32 (h * 31 + c)) str 0.

(** The text before the first hyphen, when there is a hyphen. *)
Fixpoint beforeFirstHyphen (s : list Z) : option (list Z) :=
  match s with
  | [] => None
  | c :: t => if c =? HYPHEN then Some []
              else cons c <$> beforeFirstHyphen t
  end.

(** The date in the words of the specification: the text up to the first
    separator of the field, runs of white space taken out as the code
    takes them out. *)
Definition getDateUpToFirstSeparator (dateString : list Z) : list Z :=
  match beforeFirstHyphen (replaceRuns false [] [] dateString) with
  | Some m => trim m
  | None => []
  end.

(** The candidates of a page in the words of the specification: the
    summaries before the first one that is not after the cutoff. *)
Fixpoint beforeFirstPastCutoff {A} (after : A -> bool) (l : list A) : list A :=
  match l with
  | [] => []
  | x :: t => if after x then x :: beforeFirstPastCutoff after t else []
  end.

End Spec.

(** ** Notions used in the statements *)


(** Reaching for the article itself: fetching a detail page or calling the
    extraction. *)
Definition isDetailWork (e : IO) : bool :=
  match e with
  | Fetch (Detail _) | Call _ => true
  | _ => false
  end.

(** The events [getAndStoreArticlesFromLinks] can produce. *)
Definition isArticleIO (e : IO) : Prop :=
  match e with
  | Fetch (Detail _) | Call _ | Write (HtmlFile _ _) | Write (MetaFile _ _) => True
  | _ => False
  end.

(** How a state can have come out of another one by running part of the
    pipeline: the trace only grows, by events in [P]; [done] is never
    reset; a meta file with an extraction result is never rewritten; page
    files and page results outside [Q] stay as they are; the directory of
    the page files, once made, stays. *)
Record step (P : IO → Prop) (Q : Z → Prop) (s s' : State) : Prop := {
  step_trace : ∃ evs, trace s' = trace s ++ evs ∧ Forall P evs;
  step_done : done s = true → done s' = true;
  step_meta : ∀ k r, metaFiles (disk s) !! k = Some r →
                     truthy (r_victims r) = true →
                     metaFiles (disk s') !! k = Some r;
  step_pageFiles : ∀ p, ¬ Q p → pageFiles (disk s') !! p = pageFiles (disk s) !! p;
  step_pageJson : ∀ p, ¬ Q p → pageJson (disk s') !! p = pageJson (disk s) !! p;
  step_dir : sourcesDir (disk s) = true → sourcesDir (disk s') = true }.

Section Notions.
Context `{Runtime}.

(** The summary [getDciLinksFromLanding] makes of an article that has a
    date field. *)
Definition summaryOf (article : Article) : option Payload :=
  (fun d => {| p_link := apex ++ hrefString (anchorHref article);
               p_headline := trim <$> h3Text article;
               p_date := getDate d |}) <$> dateText article.

(** The summary is dated after the cutoff. *)
Definition afterCutoff (p : Payload) : bool := relevant (p_date p).

(** The cache record of a summary is the meta file at this place. *)
Definition recordPath (date headline : list Z) : list Z * Z :=
  (dateDir date, hash headline).

(** What the extraction of a fetched detail page gives to [victims], and
    the call it takes, at a given trace. *)
Definition extraction (tr : list IO) (html : list Z) : Victims * list IO :=
  match contentBox html with
  | None => (Null, [])
  | Some text =>
      (match openai tr (clean text) with
       | ToolCall results => results
       | NetworkError | HttpError | BadBody => Null
       end, [Call (clean text)])
  end.

(** The extraction call fails: no content box to read, or an exchange that
    errors or is malformed. *)
Definition extractionFails (tr : list IO) (html : list Z) : Prop :=
  match contentBox html with
  | None => True
  | Some text =>
      match openai tr (clean text) with
      | ToolCall _ => False
      | NetworkError | HttpError | BadBody => True
      end
  end.

(** The exchange goes through and the arguments of the tool call parse,
    but to a value without [results], so that [victims] is [undefined]. *)
Definition answerWithoutResults (tr : list IO) (html : list Z) : Prop :=
  match contentBox html with
  | None => False
  | Some text => openai tr (clean text) = ToolCall Undefined
  end.

(** The record and the state a cache miss leaves. *)
Definition missRecord (headline date link : list Z) (s : State) : Rec :=
  {| r_headline := headline; r_date := date; r_link := link;
     r_htmlFile := recordPath date headline;
     r_victims := (extraction (trace s ++ [Fetch (Detail link)]) (web (Detail link))).1 |}.

Definition missState (headline date link : list Z) (s : State) : State :=
  let k := recordPath date headline in
  {| done := done s;
     disk := {| metaFiles := <[k := missRecord headline date link s]> (metaFiles (disk s));
                htmlFiles := <[k := web (Detail link)]> (htmlFiles (disk s));
                sourcesDir := sourcesDir (disk s);
                pageFiles := pageFiles (disk s);
                pageJson := pageJson (disk s);
                allJson := allJson (disk s) |};
     trace := trace s ++ [Fetch (Detail link)]
              ++ (extraction (trace s ++ [Fetch (Detail link)]) (web (Detail link))).2
              ++ [Write (HtmlFile k.1 k.2); Write (MetaFile k.1 k.2)] |}.

(** The meta file of the summary holds an extraction result. *)
Definition cachedVictims (d : Disk) (date headline : list Z) : option Victims :=
  match metaFiles d !! recordPath date headline with
  | Some r => if truthy (r_victims r) then Some (r_victims r) else None
  | None => None
  end.

(** The page lists its summaries from the latest to the earliest, all of
    them with a date the runtime can read. *)
Definition dateDescending (l : list Payload) : Prop :=
  ∀ (i j : nat) p q, (i < j)%nat → l !! i = Some p → l !! j = Some q →
    ∃ tp tq, dateTime (p_date p) = Some tp ∧ dateTime (p_date q) = Some tq
             ∧ tq <= tp.

(** The record a cache hit returns. *)
Definition hitRecord (headline date link : list Z) (v : Victims) : Rec :=
  {| r_headline := headline; r_date := date; r_link := link;
     r_htmlFile := recordPath date headline; r_victims := v |}.

(** The four ways a turn of [getAndStoreArticlesFromLinks] can go. *)
Inductive storeCase (kws : list (list Z)) (acc : list Rec) (p : Payload) (s : State)
  : Res (list Rec) * State → Prop :=
| store_throws :
    p_headline p = None → kws ≠ [] →
    storeCase kws acc p s (Throw, s)
| store_skips :
    match p_headline p with
    | None => kws = []
    | Some h => someKeyword kws h = false
    end →
    storeCase kws acc p s (Val acc, s)
| store_hits h v :
    p_headline p = Some h → someKeyword kws h = true →
    cachedVictims (disk s) (p_date p) h = Some v →
    storeCase kws acc p s (Val (acc ++ [hitRecord h (p_date p) (p_link p) v]), s)
| store_misses h :
    p_headline p = Some h → someKeyword kws h = true →
    cachedVictims (disk s) (p_date p) h = None →
    storeCase kws acc p s
      (Val (acc ++ [missRecord h (p_date p) (p_link p) s]),
       missState h (p_date p) (p_link p) s).

(** The state with the flag raised when [b] holds. *)
Definition stopIf (b : bool) (s : State) : State :=
  {| done := done s || b; disk := disk s; trace := trace s |}.

(** [getDciLinksFromLanding] without the state: what the [reduce] returns
    from the accumulator [acc], and whether it raises the flag before it
    returns or throws. *)
Fixpoint landing (articles : list Article) (acc : list Payload)
  : Res (list Payload) * bool :=
  match articles with
  | [] => (Val acc, false)
  | a :: t =>
      match summaryOf a with
      | None => (Throw, false)
      | Some p => if afterCutoff p then landing t (acc ++ [p])
                  else ((landing t acc).1, true)
      end
  end.

(** The state once the directory is made and the results of a page and
    the page are written. *)
Definition pageWritten (page : Z) (html : list Z) (arts : list Rec) (s : State) : State :=
  {| done := done s;
     disk := {| metaFiles := metaFiles (disk s); htmlFiles := htmlFiles (disk s);
                sourcesDir := true;
                pageFiles := <[page := html]> (pageFiles (disk s));
                pageJson := <[page := arts]> (pageJson (disk s));
                allJson := allJson (disk s) |};
     trace := trace s ++ [Write (PageJson page); Write (PageFile page)] |}.

(** The state once the aggregate is written. *)
Definition allWritten (acc : list Rec) (s : State) : State :=
  {| done := done s;
     disk := {| metaFiles := metaFiles (disk s); htmlFiles := htmlFiles (disk s);
                sourcesDir := sourcesDir (disk s);
                pageFiles := pageFiles (disk s); pageJson := pageJson (disk s);
                allJson := Some acc |};
     trace := trace s ++ [Write AllJson] |}.

(** What the write of the aggregate comes to: the state once it is
    written; without the directory the write throws and leaves the state
    as it is. *)
Definition finish (acc : list Rec) (s : State) : Res (list Rec) * State :=
  if dirExists (disk s) then (Val acc, allWritten acc s) else (Throw, s).

(** The events of processing one page. *)
Definition isPageIO (e : IO) : Prop :=
  match e with
  | Fetch (ListingPage _) | Write AllJson => False
  | _ => True
  end.

(** A result with the accumulator put in front. *)
Definition withAcc {A} (acc : list A) (out : Res (list A) * State)
  : Res (list A) * State :=
  match out with
  | (Val l, s) => (Val (acc ++ l), s)
  | (Throw, s) => (Throw, s)
  end.

End Notions.

(** [pre] is the text of the first line of [cleaned] that has a hyphen,
    up to the last hyphen of that line: [skipped] is made of whole lines
    without a hyphen, [pre] is on one line, and no hyphen follows on that
    line. *)
Definition firstHyphenLine (cleaned skipped pre post : list Z) : Prop :=
  cleaned = skipped ++ pre ++ HYPHEN :: post
  ∧ (HYPHEN ∉ skipped)
  ∧ (skipped = [] ∨ (∃ sk c, skipped = sk ++ [c] ∧ isLineTerminator c = true))
  ∧ (∀ c, c ∈ pre → isLineTerminator c = false)
  ∧ (HYPHEN ∉ dotStar post).

(** ** Concrete cases *)

Module Cases.
Import Demo.

(** The extraction answers with one victim, or the network is down. *)
Definition reply : list IO → list Z → Response :=
  λ _ _, ToolCall (Results [victim "Tawfiq"]).
Definition down : list IO → list Z → Response := λ _ _, NetworkError.

(** The extraction answers with arguments that have no [results]. *)
Definition noResults : list IO → list Z → Response := λ _ _, ToolCall Undefined.

(** A site given by the articles of its pages, page 1 first. *)
Definition site (l : list (list Article)) (n : Z) : list Article :=
  if 1 <=? n then default [] (l !! Z.to_nat (n - 1)) else [].

Definition jan05 : Article :=
  article (js "/a") (js "Boy killed in strike") (dateField "January 05, 2024").
Definition jan03 : Article :=
  article (js "/b") (js "Two wounded in attack") (dateField "January 03, 2024").
Definition sep20 : Article :=
  article (js "/c") (js "Israeli forces shoot boy") (dateField "September 20, 2023").
Definition aug01 : Article :=
  article (js "/d") (js "Child injured by fire") (dateField "August 01, 2023").
Definition dec12 : Article :=
  article (js "/e") (js "Girl shot near school") (dateField "December 12, 2023").

(** A date field the runtime cannot read as a date. *)
Definition lastWeek : Article :=
  article (js "/f") (js "Teenager dead after raid") (dateField "Last week").

(** The same headline as [jan05], in the same month, at another link. *)
Definition twin : Article :=
  article (js "/a-update") (js "Boy killed in strike") (dateField "January 03, 2024").

(** The page of the example of the specification, then one more page. *)
Definition descending : Runtime :=
  world 2 (site [[jan05; jan03; sep20; aug01]; [dec12]]) reply.

(** A page whose third entry is later than its second. *)
Definition shuffled : Runtime :=
  world 2 (site [[jan05; sep20; jan03]; [dec12]]) reply.

(** A page that starts with an unreadable date. *)
Definition unreadable : Runtime :=
  world 2 (site [[lastWeek; jan05]; [dec12]]) reply.

(** Two pages of articles after the cutoff; the extraction works, or it is
    down. *)
Definition steady : Runtime := world 2 (site [[jan05; jan03]; [dec12]]) reply.
Definition offline : Runtime := world 2 (site [[jan05; jan03]; [dec12]]) down.

(** The same two pages; the extraction answers without [results]. *)
Definition schemaless : Runtime := world 2 (site [[jan05; jan03]; [dec12]]) noResults.



(** A page with the same headline twice. *)
Definition twins : Runtime := world 1 (site [[jan05; twin]]) reply.

(** The summary of an article of these worlds. *)
Definition summary (a : Article) : Payload :=
  {| p_link := apex ++ hrefString (anchorHref a);
     p_headline := trim <$> h3Text a;
     p_date := getDate (default [] (dateText a)) |}.

(** A date field with a second separator on the line of the date. *)
Definition twoSeparators : list Z :=
  js "January 20, 2024 " ++ [LF] ++ js " - Location: West Bank - Issue: News".

(** The date field of the example of the specification. *)
Definition westBank : list Z :=
  js "January 20, 2024 " ++ [LF] ++ js " - Location: West Bank".

(** A date field whose first line is empty: the date is on the second. *)
Definition secondLine : list Z := [LF] ++ js "January 05, 2024 - Location:".

End Cases.

(** ** Further notions *)

Section MoreNotions.
Context `{Runtime}.

(** The summary passes the keyword test of [getAndStoreArticlesFromLinks]. *)
Definition matchesKeyword (kws : list (list Z)) (p : Payload) : bool :=
  match p_headline p with
  | Some headline => someKeyword kws headline
  | None => false
  end.

(** Every record on file sits at the place its own date and headline give,
    says so in its [htmlFile], and has next to it the page of its link. *)
Definition coherent (d : Disk) : Prop :=
  ∀ k r, metaFiles d !! k = Some r →
    k = recordPath (r_date r) (r_headline r)
    ∧ r_htmlFile r = k
    ∧ htmlFiles d !! k = Some (web (Detail (r_link r))).

(** The page results on file for the [n] pages from [page] on, one after
    the other. *)
Fixpoint pageResults (d : Disk) (page : Z) (n : nat) : list Rec :=
  match n with
  | O => []
  | S n' => default [] (pageJson d !! page) ++ pageResults d (page + 1) n'
  end.

End MoreNotions.

(** ** White space in a string *)

(** No two white space characters stand next to each other. *)
Fixpoint singleSpaced (l : list Z) : bool :=
  match l with
  | a :: t =>
      match t with
      | b :: _ => negb (isSpace a && isSpace b)
      | [] => true
      end && singleSpaced t
  | [] => true
  end.

(** Neither the first nor the last character is white space. *)
Definition trimmed (l : list Z) : Prop :=
  (∀ c, head l = Some c → isSpace c = false)
  ∧ (∀ c, last l = Some c → isSpace c = false).

(** The characters that are not white space, in order. *)
Definition ink (l : list Z) : list Z := List.filter (λ c, negb (isSpace c)) l.

(** [str.replace(/,/g, '')] *)
Definition removeCommas (l : list Z) : list Z :=
  List.filter (λ c, negb (c =? COMMA)) l.

(** ** The name-search CLI: [main] *)

Module NameSearchMain.

(** [[...new Set(arr)]]: the elements in the order of their first
    occurrence; [seen] holds the elements met so far. *)
Fixpoint setOrder (seen arr : list (list Z)) : list (list Z) :=
  match arr with
  | [] => []
  | x :: t => if decide (x ∈ seen) then setOrder seen t
              else x :: setOrder (x :: seen) t
  end.

(** [uniqueVariations] of [main]. *)
Definition uniqueVariations (name : list Z) : list (list Z) :=
  setOrder [] (NameSearch.getNameVariations name).

(** [lastName] of [main], the term sent to the sites:
    [nameVariations[0]], which is there as the list is never empty. *)
Definition lastName (name : list Z) : list Z :=
  default [] (head (NameSearch.getNameVariations name)).

End NameSearchMain.

(** ** The earlier scripts *)

Section EarlierNotions.
Context `{Runtime}.

(** The summary [getLinksFromRoot] makes of an article that has a date
    field. *)
Definition earlierSummary (article : Article) : option Payload :=
  (fun d => {| p_link := apex ++ hrefString (anchorHref article);
               p_headline := trim <$> h3Text article;
               p_date := Sites.getDate d |}) <$> dateText article.

End EarlierNotions.

(** The payload [grab] makes of a link that has a date string. *)
Definition grabPayload (l : Headless.Scraped) : option (list Z * list Z * list Z) :=
  (fun ds => (Headless.s_headline l, Headless.s_link l, Sites.getDate ds))
    <$> Headless.date_string l.

(** * Properties *)

(** ** The 32-bit arithmetic of [hash] *)

Lemma wrap32_range z : - 2 ^ 31 <= wrap32 z < 2 ^ 31.
Proof.
  unfold wrap32. pose proof (Z.mod_pos_bound (z + 2 ^ 31) (2 ^ 32)). lia.
Qed.

Lemma wrap32_shift z : ∃ k, wrap32 z = z + k * 2 ^ 32.
Proof.
  exists (- ((z + 2 ^ 31) / 2 ^ 32)). unfold wrap32.
  rewrite Z.mod_eq by lia. lia.
Qed.

Lemma wrap32_add_multiple z k : wrap32 (z + k * 2 ^ 32) = wrap32 z.
Proof.
  unfold wrap32. replace (z + k * 2 ^ 32 + 2 ^ 31) with (z + 2 ^ 31 + k * 2 ^ 32) by lia.
  now rewrite Z.mod_add by lia.
Qed.

Lemma wrap32_small z : - 2 ^ 31 <= z < 2 ^ 31 → wrap32 z = z.
Proof. intros Hz. unfold wrap32. rewrite Z.mod_small; lia. Qed.

Lemma wrap32_idemp z : wrap32 (wrap32 z) = wrap32 z.
Proof. apply wrap32_small, wrap32_range. Qed.

Lemma and32_diag x : and32 x x = wrap32 x.
Proof. unfold and32. now rewrite Z.land_diag, wrap32_idemp. Qed.

Lemma hash_step_classic h c : hash_step h c = wrap32 (h * 31 + c).
Proof.
  unfold hash_step, shl32. rewrite and32_diag, Z.shiftl_mul_pow2 by lia.
  destruct (wrap32_shift h) as [k1 ->].
  destruct (wrap32_shift ((h + k1 * 2 ^ 32) * 2 ^ 5)) as [k2 ->].
  replace ((h + k1 * 2 ^ 32) * 2 ^ 5 + k2 * 2 ^ 32 - h + c)
    with (h * 31 + c + (k1 * 2 ^ 5 + k2) * 2 ^ 32) by lia.
  apply wrap32_add_multiple.
Qed.

(** The numbers the loop of [hash] goes through stay far below 2^53, so
    the floating-point subtraction and addition of the script are exact. *)
Lemma hash_step_exact h c :
  - 2 ^ 31 <= h < 2 ^ 31 → 0 <= c < 2 ^ 16 →
  - 2 ^ 53 < shl32 h 5 - h + c < 2 ^ 53.
Proof.
  intros Hh Hc. pose proof (wrap32_range (Z.shiftl (wrap32 h) 5)).
  unfold shl32. lia.
Qed.

Lemma fold_left_ext_eq {A B} (f g : A → B → A) l a :
  (∀ x y, f x y = g x y) → fold_left f l a = fold_left g l a.
Proof. intros E. revert a. induction l as [|x l IH]; intros a; simpl; [done|]. now rewrite E, IH. Qed.

Lemma hash_classic str : hash str = Spec.classicHash str.
Proof. apply fold_left_ext_eq, hash_step_classic. Qed.

Lemma hash_snoc str c : hash (str ++ [c]) = wrap32 (hash str * 31 + c).
Proof. unfold hash. now rewrite fold_left_app, <- hash_step_classic. Qed.

Lemma hash_range str : - 2 ^ 31 <= hash str < 2 ^ 31.
Proof.
  induction str as [|c str _] using rev_ind; [cbn; lia|].
  rewrite hash_snoc. apply wrap32_range.
Qed.

(** ** Splitting, and the name variations *)

Lemma splitOn_no_sep sep cur s : sep ∉ s → splitOn sep cur s = [cur ++ s].
Proof.
  revert cur. induction s as [|c s IH]; intros cur Hs; simpl.
  - now rewrite app_nil_r.
  - apply not_elem_of_cons in Hs as [Hc Hs].
    destruct (Z.eqb_spec c sep) as [->|_]; [done|].
    rewrite IH by done. now rewrite <- app_assoc.
Qed.

Lemma getNameVariations_last fullName :
  last (NameSearch.getNameVariations fullName) = Some fullName.
Proof.
  unfold NameSearch.getNameVariations.
  now destruct (length (split SPACE fullName) =? 1)%nat.
Qed.

(** ** The regular expressions of [getDate] *)

Lemma dotStar_app pre rest :
  (∀ c, c ∈ pre → isLineTerminator c = false) →
  dotStar (pre ++ rest) = pre ++ dotStar rest.
Proof.
  induction pre as [|c pre IH]; intros Hpre; simpl; [done|].
  rewrite (Hpre c) by left. rewrite IH; [done|].
  intros c' Hc'. apply Hpre. now right.
Qed.

Lemma upToLastHyphen_none l : HYPHEN ∉ l → upToLastHyphen l = None.
Proof.
  induction l as [|c l IH]; intros Hl; simpl; [done|].
  apply not_elem_of_cons in Hl as [Hc Hl]. rewrite IH by done.
  destruct (Z.eqb_spec c HYPHEN); congruence.
Qed.

Lemma upToLastHyphen_last pre l :
  HYPHEN ∉ l → upToLastHyphen (pre ++ HYPHEN :: l) = Some pre.
Proof.
  intros Hl. induction pre as [|c pre IH]; simpl.
  - now rewrite upToLastHyphen_none.
  - now rewrite IH.
Qed.

Lemma execFirstLine_here s m :
  upToLastHyphen (dotStar s) = Some m → execFirstLine s = Some m.
Proof. destruct s as [|c s]; simpl; [done|]. now intros ->. Qed.

(** When the field, white space runs taken out, reads [pre], a hyphen and
    [post], with [pre] on one line and no other hyphen before the end of
    that line, the match is [pre]. *)
Lemma execFirstLine_last_hyphen pre post :
  (∀ c, c ∈ pre → isLineTerminator c = false) →
  HYPHEN ∉ dotStar post →
  execFirstLine (pre ++ HYPHEN :: post) = Some pre.
Proof.
  intros Hpre Hpost. apply execFirstLine_here.
  rewrite dotStar_app by done. simpl.
  now apply upToLastHyphen_last.
Qed.

Lemma dotStar_split s :
  ∃ rest, s = dotStar s ++ rest ∧ Forall (λ c, isLineTerminator c = false) (dotStar s).
Proof.
  induction s as [|c s (rest & Hs & Hf)]; cbn [dotStar]; [now exists []|].
  destruct (isLineTerminator c) eqn:Hc.
  - now exists (c :: s).
  - exists rest. split; [cbn [app]; now f_equal|now constructor].
Qed.

Lemma upToLastHyphen_split l p :
  upToLastHyphen l = Some p → ∃ r, l = p ++ HYPHEN :: r.
Proof.
  revert p. induction l as [|c l IH]; intros p; simpl; [done|].
  destruct (upToLastHyphen l) as [q|].
  - intros [= <-]. destruct (IH q eq_refl) as [r ->]. now exists r.
  - destruct (Z.eqb_spec c HYPHEN) as [->|]; [|done]. intros [= <-]. now exists l.
Qed.

(** A match of the regular expression is a piece of one line of the
    string, and a hyphen follows it. *)
Lemma execFirstLine_split s m :
  execFirstLine s = Some m →
  ∃ pre post, s = pre ++ m ++ HYPHEN :: post
              ∧ Forall (λ c, isLineTerminator c = false) m.
Proof.
  induction s as [|c s IH]; [done|].
  cbn [execFirstLine]. destruct (upToLastHyphen (dotStar (c :: s))) as [p|] eqn:Hp.
  - intros [= <-]. destruct (upToLastHyphen_split _ _ Hp) as [r Hr].
    destruct (dotStar_split (c :: s)) as (rest & Hs & Hf).
    exists [], (r ++ rest). split.
    + rewrite Hs at 1. rewrite Hr. now rewrite <- !app_assoc.
    + rewrite Hr in Hf. now apply Forall_app in Hf as [Hf _].
  - intros (pre & post & -> & Hf)%IH. now exists (c :: pre), post.
Qed.

Lemma execFirstLine_no_hyphen s : HYPHEN ∉ s → execFirstLine s = None.
Proof.
  intros Hs. destruct (execFirstLine s) as [m|] eqn:Hm; [|done].
  destruct (execFirstLine_split _ _ Hm) as (pre & post & -> & _).
  exfalso. apply Hs. rewrite !elem_of_app. right. right. now left.
Qed.

Lemma dotStar_line sk c rest x :
  isLineTerminator c = true → x ∈ dotStar (sk ++ c :: rest) → x ∈ sk.
Proof.
  intros Hc. induction sk as [|a sk IH]; cbn [app dotStar].
  - rewrite Hc. now intros ?%elem_of_nil.
  - destruct (isLineTerminator a); [now intros ?%elem_of_nil|].
    intros [->|Hx]%elem_of_cons; [left|right; auto].
Qed.

(** Whole lines without a hyphen are passed over. *)
Lemma execFirstLine_skip sk c rest :
  HYPHEN ∉ sk → isLineTerminator c = true →
  execFirstLine (sk ++ c :: rest) = execFirstLine rest.
Proof.
  intros Hsk Hc. induction sk as [|a sk IH].
  - cbn [app execFirstLine dotStar]. now rewrite Hc.
  - change ((a :: sk) ++ c :: rest) with (a :: (sk ++ c :: rest)).
    cbn [execFirstLine].
    change (a :: (sk ++ c :: rest)) with ((a :: sk) ++ c :: rest).
    rewrite upToLastHyphen_none.
    + apply IH. intros Hin. apply Hsk. now right.
    + intros Hin. apply Hsk. eapply dotStar_line; eauto.
Qed.

Lemma execFirstLine_first_hyphen_line cleaned skipped pre post :
  firstHyphenLine cleaned skipped pre post → execFirstLine cleaned = Some pre.
Proof.
  intros (-> & Hsk & Hend & Hpre & Hpost).
  destruct Hend as [->|(sk & c & -> & Hc)].
  - now apply execFirstLine_last_hyphen.
  - rewrite <- app_assoc. cbn [app].
    rewrite execFirstLine_skip; [now apply execFirstLine_last_hyphen| |done].
    intros Hin. apply Hsk. apply elem_of_app. now left.
Qed.

Lemma upToLastHyphen_none_inv l : upToLastHyphen l = None → HYPHEN ∉ l.
Proof.
  induction l as [|c l IH]; cbn [upToLastHyphen]; [intros _; apply not_elem_of_nil|].
  destruct (upToLastHyphen l); [done|].
  destruct (Z.eqb_spec c HYPHEN); [done|]. intros _.
  apply not_elem_of_cons. split; [congruence|auto].
Qed.

Lemma upToLastHyphen_last_inv l p :
  upToLastHyphen l = Some p → ∃ r, l = p ++ HYPHEN :: r ∧ HYPHEN ∉ r.
Proof.
  revert p. induction l as [|c l IH]; intros p; cbn [upToLastHyphen]; [done|].
  destruct (upToLastHyphen l) as [q|] eqn:Hq.
  - intros [= <-]. destruct (IH q eq_refl) as (r & -> & Hr). now exists r.
  - destruct (Z.eqb_spec c HYPHEN) as [->|]; [|done]. intros [= <-].
    exists l. split; [done|]. now apply upToLastHyphen_none_inv.
Qed.

Lemma dotStar_rest s :
  ∃ rest, s = dotStar s ++ rest
          ∧ (∀ c, c ∈ dotStar s → isLineTerminator c = false)
          ∧ dotStar rest = [].
Proof.
  induction s as [|c s (rest & Hs & Hf & Hr)]; cbn [dotStar].
  - exists []. split_and!; [done| |done]. now intros c ?%elem_of_nil.
  - destruct (isLineTerminator c) eqn:Hc.
    + exists (c :: s). split_and!; [done| |].
      * now intros x ?%elem_of_nil.
      * cbn [dotStar]. now rewrite Hc.
    + exists rest. split_and!; [cbn [app]; now f_equal| |done].
      intros x [->|Hx]%elem_of_cons; auto.
Qed.

Lemma dotStar_stop l rest :
  (∀ c, c ∈ l → isLineTerminator c = false) → dotStar rest = [] →
  dotStar (l ++ rest) = l.
Proof. intros Hl Hr. rewrite dotStar_app by done. now rewrite Hr, app_nil_r. Qed.

(** A match is the text of the first line with a hyphen, up to the last
    hyphen of that line. *)
Lemma execFirstLine_inv s m :
  execFirstLine s = Some m → ∃ skipped post, firstHyphenLine s skipped m post.
Proof.
  revert m. induction s as [|c s IH]; intros m; [done|].
  cbn [execFirstLine].
  destruct (upToLastHyphen (dotStar (c :: s))) as [p|] eqn:Hp.
  - intros [= <-]. destruct (upToLastHyphen_last_inv _ _ Hp) as (r & Hr & Hnr).
    destruct (dotStar_rest (c :: s)) as (rest & Hs & Hf & Hrest).
    exists [], (r ++ rest). split_and!.
    + cbn [app]. rewrite Hs at 1. rewrite Hr. now rewrite <- !app_assoc.
    + apply not_elem_of_nil.
    + now left.
    + intros x Hx. apply Hf. rewrite Hr. apply elem_of_app. now left.
    + rewrite dotStar_stop; [done| |done].
      intros x Hx. apply Hf. rewrite Hr. apply elem_of_app. right. now right.
  - intros Hm. destruct (IH m Hm) as (skipped & post & Hs & Hsk & Hend & Hpre & Hpost).
    apply upToLastHyphen_none_inv in Hp.
    assert (skipped = [] → isLineTerminator c = true) as Hline.
    { intros ->. cbn [app] in Hs. destruct (isLineTerminator c) eqn:Hc; [done|].
      exfalso. apply Hp. cbn [dotStar]. rewrite Hc, Hs, dotStar_app by done.
      right. apply elem_of_app. right. cbn [dotStar].
      change (isLineTerminator HYPHEN) with false. now left. }
    assert (c ≠ HYPHEN) as Hc.
    { intros ->. apply Hp. cbn [dotStar].
      change (isLineTerminator HYPHEN) with false. now left. }
    exists (c :: skipped), post. split_and!.
    + cbn [app]. now f_equal.
    + apply not_elem_of_cons. now split.
    + right. destruct Hend as [->|(sk & c' & -> & Hc')].
      * exists [], c. split; [done|]. now apply Hline.
      * exists (c :: sk), c'. now split.
    + done.
    + done.
Qed.

Lemma upToLastHyphen_some l : HYPHEN ∈ l → is_Some (upToLastHyphen l).
Proof.
  induction l as [|c l IH]; [now intros ?%elem_of_nil|].
  cbn [upToLastHyphen]. intros [<-|Hl]%elem_of_cons.
  - destruct (upToLastHyphen l); [eauto|]. now rewrite Z.eqb_refl.
  - destruct (IH Hl) as [p ->]. eauto.
Qed.

Lemma execFirstLine_some s : HYPHEN ∈ s → is_Some (execFirstLine s).
Proof.
  induction s as [|c s IH]; [now intros ?%elem_of_nil|].
  cbn [execFirstLine]. intros Hin.
  destruct (upToLastHyphen (dotStar (c :: s))) as [p|] eqn:Hp; [eauto|].
  apply IH. apply elem_of_cons in Hin as [<-|Hin]; [|done].
  apply upToLastHyphen_none_inv in Hp. exfalso. apply Hp.
  cbn [dotStar]. change (isLineTerminator HYPHEN) with false. now left.
Qed.

(** ** Runs of white space are taken out whole *)

Lemma replaceRuns_run dc rep run ws s :
  Forall (λ c, isSpace c = true) ws →
  replaceRuns dc rep run (ws ++ s) = replaceRuns dc rep (run ++ ws) s.
Proof.
  intros Hws. revert run. induction Hws as [|w ws Hw _ IH]; intros run.
  - now rewrite app_nil_r.
  - cbn [app replaceRuns]. rewrite Hw, IH. now rewrite <- app_assoc.
Qed.

Lemma replaceRuns_end dc rep run a c s :
  isSpace c = false →
  replaceRuns dc rep run (a ++ c :: s)
  = replaceRuns dc rep run (a ++ [c]) ++ replaceRuns dc rep [] s.
Proof.
  intros Hc. revert run. induction a as [|x a IH]; intros run; cbn [app replaceRuns].
  - rewrite Hc. change (flushRun rep []) with (@nil Z).
    now rewrite app_nil_r, <- !app_assoc.
  - destruct (isSpace x); [apply IH|]. rewrite IH. now rewrite <- !app_assoc.
Qed.

Lemma flushRun_long run : (2 ≤ length run)%nat → flushRun [] run = [].
Proof. destruct run as [|a [|b run]]; simpl; [lia|lia|done]. Qed.

Lemma replaceRuns_deletes a ws b :
  (∀ c, last a = Some c → isSpace c = false) →
  Forall (λ c, isSpace c = true) ws → (2 ≤ length ws)%nat →
  (∀ c, head b = Some c → isSpace c = false) →
  replaceRuns false [] [] (a ++ ws ++ b)
  = replaceRuns false [] [] a ++ replaceRuns false [] [] b.
Proof.
  intros Ha Hws Hlen Hb.
  assert (replaceRuns false [] [] (ws ++ b) = replaceRuns false [] [] b) as Hrun.
  { rewrite replaceRuns_run by done. cbn [app].
    destruct b as [|c b]; cbn [replaceRuns].
    - now rewrite flushRun_long.
    - rewrite (Hb c eq_refl). now rewrite flushRun_long. }
  destruct (decide (a = [])) as [->|Hne]; [exact Hrun|].
  destruct (exists_last Hne) as (a' & c & ->).
  rewrite <- !app_assoc. cbn [app]. rewrite replaceRuns_end, Hrun; [done|].
  apply Ha. apply last_snoc.
Qed.

(** ** The steps of the pipeline *)

Section Steps.
Context `{Runtime}.

Lemma store_skip_no_keyword kws acc p h s :
  p_headline p = Some h → someKeyword kws h = false →
  storeStep kws acc p s = (Val acc, s).
Proof. intros Hh Hk. unfold storeStep. now rewrite Hh, Hk. Qed.

Lemma store_hit kws acc p h v s :
  p_headline p = Some h → someKeyword kws h = true →
  cachedVictims (disk s) (p_date p) h = Some v →
  storeStep kws acc p s =
    (Val (acc ++ [hitRecord h (p_date p) (p_link p) v]), s).
Proof.
  intros Hh Hk Hc. unfold storeStep, cachedVictims, hitRecord, recordPath in *.
  rewrite Hh, Hk. unfold tryCatch, bind, readFile.
  destruct (metaFiles (disk s) !! _) as [r|]; [|done].
  destruct (truthy (r_victims r)) eqn:Ht; [|done].
  simpl. now inversion Hc.
Qed.

Lemma store_miss kws acc p h s :
  p_headline p = Some h → someKeyword kws h = true →
  cachedVictims (disk s) (p_date p) h = None →
  storeStep kws acc p s =
    (Val (acc ++ [missRecord h (p_date p) (p_link p) s]),
     missState h (p_date p) (p_link p) s).
Proof.
  intros Hh Hk Hc. unfold storeStep, cachedVictims in *. rewrite Hh, Hk.
  unfold missState, missRecord, extraction, recordPath in *.
  unfold tryCatch at 1. unfold bind at 1. unfold readFile.
  destruct (metaFiles (disk s) !! _) as [r|] eqn:Hr;
    [destruct (truthy (r_victims r)) eqn:Ht; [done|]; simpl|];
    unfold throw, fetchHTML, getPageAndConvertToData, htmlToText, callClosedAi,
      writeHtmlFile, writeMetaFile, onDisk, emit, ret, bind, tryCatch; simpl;
    (destruct (contentBox _) as [text|]; simpl;
      [destruct (openai _ _); simpl|]);
    rewrite <- ?app_assoc; reflexivity.
Qed.

Lemma storeStep_cases kws acc p s : storeCase kws acc p s (storeStep kws acc p s).
Proof.
  destruct (p_headline p) as [h|] eqn:Hh.
  - destruct (someKeyword kws h) eqn:Hk.
    + destruct (cachedVictims (disk s) (p_date p) h) as [v|] eqn:Hc.
      * rewrite (store_hit _ _ _ _ _ _ Hh Hk Hc). now eapply store_hits.
      * rewrite (store_miss _ _ _ _ _ Hh Hk Hc). now eapply store_misses.
    + rewrite (store_skip_no_keyword _ _ _ _ _ Hh Hk). apply store_skips. now rewrite Hh.
  - unfold storeStep. rewrite Hh. destruct kws as [|w kws].
    + apply store_skips. now rewrite Hh.
    + now apply store_throws.
Qed.

Lemma storeStep_acc kws acc p s :
  storeStep kws acc p s = withAcc acc (storeStep kws [] p s).
Proof.
  destruct (storeStep_cases kws [] p s) as [Hh Hk|Hs|h v Hh Hk Hc|h Hh Hk Hc].
  - unfold storeStep. rewrite Hh. now destruct kws.
  - simpl. rewrite app_nil_r. unfold storeStep.
    destruct (p_headline p) as [h|]; [now rewrite Hs|now subst kws].
  - now rewrite (store_hit _ _ _ _ _ _ Hh Hk Hc).
  - now rewrite (store_miss _ _ _ _ _ Hh Hk Hc).
Qed.

Lemma reduceM_store_acc kws links acc s :
  reduceM (storeStep kws) links acc s
  = withAcc acc (reduceM (storeStep kws) links [] s).
Proof.
  revert acc s. induction links as [|p links IH]; intros acc s; simpl.
  - unfold ret. simpl. now rewrite app_nil_r.
  - unfold bind. rewrite (storeStep_acc kws acc).
    destruct (storeStep kws [] p s) as [[l|] s']; simpl; [|done].
    rewrite (IH (acc ++ l)), (IH l).
    destruct (reduceM _ links [] s') as [[l'|] s'']; simpl; [|done].
    now rewrite app_assoc.
Qed.

End Steps.

(** ** How the state moves *)

Lemma step_refl P Q s : step P Q s s.
Proof.
  split; try done. exists []. now rewrite app_nil_r.
Qed.

Lemma step_trans P Q s1 s2 s3 : step P Q s1 s2 → step P Q s2 s3 → step P Q s1 s3.
Proof.
  intros [[e1 [T1 F1]] D1 M1 F1' J1 S1] [[e2 [T2 F2]] D2 M2 F2' J2 S2]. split.
  - exists (e1 ++ e2). rewrite T2, T1, app_assoc. split; [done|]. now apply Forall_app.
  - auto.
  - eauto.
  - intros p Hp. now rewrite F2', F1'.
  - intros p Hp. now rewrite J2, J1.
  - auto.
Qed.

Lemma step_mono (P P' : IO → Prop) (Q Q' : Z → Prop) s s' :
  (∀ e, P e → P' e) → (∀ p, Q p → Q' p) → step P Q s s' → step P' Q' s s'.
Proof.
  intros HP HQ [[e [T F]] D M F' J S]. split; eauto.
  exists e. split; [done|]. eapply Forall_impl; eauto.
Qed.

Section Moves.
Context `{Runtime}.

Lemma cached_stable P Q s s' date h v :
  step P Q s s' →
  cachedVictims (disk s) date h = Some v →
  cachedVictims (disk s') date h = Some v.
Proof.
  intros St. unfold cachedVictims.
  destruct (metaFiles (disk s) !! _) as [r|] eqn:Hr; [|done].
  destruct (truthy (r_victims r)) eqn:Ht; [|done].
  intros Hv. rewrite (step_meta _ _ _ _ St _ _ Hr Ht). now rewrite Ht.
Qed.

Lemma extraction_trace tr html :
  Forall isArticleIO (extraction tr html).2.
Proof.
  unfold extraction. destruct (contentBox html); simpl; [|constructor].
  repeat constructor.
Qed.

Lemma miss_step h date link s :
  cachedVictims (disk s) date h = None →
  step isArticleIO (λ _, False) s (missState h date link s).
Proof.
  intros Hc. split; simpl; try done.
  - eexists. split; [reflexivity|].
    apply Forall_cons. split; [done|].
    apply Forall_app. split; [apply extraction_trace|repeat constructor].
  - intros k r Hr Ht. unfold cachedVictims in Hc.
    destruct (decide (k = recordPath date h)) as [->|Hne].
    + rewrite Hr, Ht in Hc. done.
    + now rewrite lookup_insert_ne.
Qed.

Lemma storeStep_step kws acc p s :
  step isArticleIO (λ _, False) s (storeStep kws acc p s).2.
Proof.
  destruct (storeStep_cases kws acc p s); simpl;
    auto using step_refl, miss_step.
Qed.

Lemma reduceM_store_step kws links acc s :
  step isArticleIO (λ _, False) s (reduceM (storeStep kws) links acc s).2.
Proof.
  revert acc s. induction links as [|p links IH]; intros acc s; simpl.
  - apply step_refl.
  - unfold bind. pose proof (storeStep_step kws acc p s) as St.
    destruct (storeStep kws acc p s) as [[l|] s1]; simpl in *; [|done].
    eapply step_trans; [exact St|apply IH].
Qed.

(** After a run over the links of a page, every entry that carries an
    extraction result is backed by the meta file of its summary. *)
Lemma store_run_cached kws links s res s' :
  reduceM (storeStep kws) links [] s = (Val res, s') →
  Forall (λ rec, truthy (r_victims rec) = true →
                 cachedVictims (disk s') (r_date rec) (r_headline rec)
                 = Some (r_victims rec)) res.
Proof.
  revert s res. induction links as [|p links IH]; intros s res; simpl.
  - intros [= <- <-]. constructor.
  - unfold bind.
    destruct (storeStep_cases kws [] p s) as [Hh Hk|Hs|h v Hh Hk Hc|h Hh Hk Hc];
      [done|apply IH|..].
    + rewrite reduceM_store_acc.
      destruct (reduceM _ links [] s) as [[l|] s1] eqn:Hrun; [|done].
      simpl. intros [= <- <-]. constructor; [|exact (IH _ _ Hrun)].
      simpl. intros _.
      pose proof (reduceM_store_step kws links [] s) as St. rewrite Hrun in St.
      eapply cached_stable; [exact St|]. rewrite Hc. f_equal.
    + rewrite reduceM_store_acc.
      destruct (reduceM _ links [] _) as [[l|] s1] eqn:Hrun; [|done].
      simpl. intros [= <- <-]. constructor; [|exact (IH _ _ Hrun)].
      simpl. intros Ht.
      pose proof (reduceM_store_step kws links [] (missState h (p_date p) (p_link p) s)) as St.
      rewrite Hrun in St. eapply cached_stable; [exact St|].
      unfold cachedVictims, missState; simpl. rewrite lookup_insert_eq. simpl.
      now rewrite Ht.
Qed.

(** Replaying the links of a page on files that back every entry of the
    first run gives the same entries and touches nothing. *)
Lemma store_replay kws links s res s' t :
  reduceM (storeStep kws) links [] s = (Val res, s') →
  Forall (λ rec, cachedVictims (disk t) (r_date rec) (r_headline rec)
                 = Some (r_victims rec)) res →
  reduceM (storeStep kws) links [] t = (Val res, t).
Proof.
  revert s res. induction links as [|p links IH]; intros s res; simpl.
  - now intros [= <- <-].
  - unfold bind.
    destruct (storeStep_cases kws [] p s) as [Hh Hk|Hs|h v Hh Hk Hc|h Hh Hk Hc];
      [done|..].
    + intros Hrun Hres.
      assert (storeStep kws [] p t = (Val [], t)) as Hskip.
      { unfold storeStep. destruct (p_headline p); [now rewrite Hs|now subst]. }
      rewrite Hskip. exact (IH _ _ Hrun Hres).
    + rewrite reduceM_store_acc.
      destruct (reduceM _ links [] s) as [[l|] s1] eqn:Hrun; [|done].
      simpl. intros [= <- <-] [Hr Hl]%Forall_cons. simpl in Hr.
      rewrite (store_hit _ _ _ _ _ _ Hh Hk Hr), reduceM_store_acc.
      now rewrite (IH _ _ Hrun Hl).
    + rewrite reduceM_store_acc.
      destruct (reduceM _ links [] (missState _ _ _ _)) as [[l|] s1] eqn:Hrun; [|done].
      simpl. intros [= <- <-] [Hr Hl]%Forall_cons. simpl in Hr.
      rewrite (store_hit _ _ _ _ _ _ Hh Hk Hr), reduceM_store_acc.
      now rewrite (IH _ _ Hrun Hl).
Qed.

End Moves.

(** ** One page *)

Section Page.
Context `{Runtime}.

Lemma stopIf_false s : stopIf false s = s.
Proof. destruct s. unfold stopIf. simpl. now rewrite orb_false_r. Qed.

Lemma stopIf_stopIf a b s : stopIf b (stopIf a s) = stopIf (a || b) s.
Proof. unfold stopIf. simpl. now rewrite orb_assoc. Qed.

Lemma landingStep_eq acc a s :
  landingStep acc a s =
  match summaryOf a with
  | None => (Throw, s)
  | Some p => if afterCutoff p then (Val (acc ++ [p]), s)
              else (Val acc, stopIf true s)
  end.
Proof.
  unfold landingStep, summaryOf, afterCutoff, stopIf, bind.
  destruct (dateText a) as [d|]; simpl; [|done].
  destruct (relevant (getDate d)); simpl; [done|].
  unfold setDone, ret. simpl. now rewrite orb_true_r.
Qed.

Lemma landing_run articles acc s :
  reduceM landingStep articles acc s
  = ((landing articles acc).1, stopIf (landing articles acc).2 s).
Proof.
  revert acc s. induction articles as [|a t IH]; intros acc s; simpl.
  - now rewrite stopIf_false.
  - unfold bind. rewrite landingStep_eq.
    destruct (summaryOf a) as [p|]; simpl; [|now rewrite stopIf_false].
    destruct (afterCutoff p); [apply IH|].
    rewrite IH, stopIf_stopIf. reflexivity.
Qed.

(** With a date field on every article, a summary is kept exactly when it
    is dated after the cutoff, wherever it stands on the page, and the
    flag is raised exactly when one is not. *)
Lemma landing_dated articles acc :
  Forall (λ a, is_Some (dateText a)) articles →
  landing articles acc
  = (Val (acc ++ List.filter afterCutoff (omap summaryOf articles)),
     existsb (λ p, negb (afterCutoff p)) (omap summaryOf articles)).
Proof.
  intros Hd. revert acc. induction Hd as [|a t [d Hd] _ IH]; intros acc.
  - simpl. now rewrite app_nil_r.
  - assert (∃ p, summaryOf a = Some p) as [p Hp]
      by (unfold summaryOf; rewrite Hd; eauto).
    cbn [landing omap list_omap]. rewrite Hp. cbn [List.filter existsb].
    destruct (afterCutoff p) eqn:Ha; simpl.
    + now rewrite IH, <- app_assoc.
    + now rewrite IH.
Qed.

Lemma processPage_eq kws page html s :
  processPage kws page html s =
  match landing (featured html) [] with
  | (Val links, b) =>
      match reduceM (storeStep kws) links [] (stopIf b s) with
      | (Val arts, s2) => (Val arts, pageWritten page html arts s2)
      | (Throw, s2) => (Throw, s2)
      end
  | (Throw, b) => (Throw, stopIf b s)
  end.
Proof.
  unfold processPage, getDciLinksFromLanding, getAndStoreArticlesFromLinksWith.
  unfold bind at 1. rewrite landing_run.
  destruct (landing (featured html) []) as [[links|] b]; simpl; [|done].
  unfold bind at 1.
  destruct (reduceM (storeStep kws) links [] (stopIf b s)) as [[arts|] s2]; [|done].
  unfold mkdirSources, writePageJson, writePageFile, writeInSources, onDisk,
    emit, bind, ret, pageWritten, dirExists; simpl.
  now rewrite <- app_assoc.
Qed.

(** A page that has been processed has left the directory behind. *)
Lemma processPage_made kws page html s arts s2 :
  processPage kws page html s = (Val arts, s2) → sourcesDir (disk s2) = true.
Proof.
  rewrite processPage_eq.
  destruct (landing (featured html) []) as [[links|] b]; [|done].
  destruct (reduceM (storeStep kws) links [] (stopIf b s)) as [[arts'|] s2']; [|done].
  now intros [= _ <-].
Qed.

Lemma stopIf_step P Q b s : step P Q s (stopIf b s).
Proof.
  split; simpl; try done.
  - exists []. now rewrite app_nil_r.
  - now intros ->.
Qed.

Lemma pageWritten_step page html arts s :
  step isPageIO (λ p, p = page) s (pageWritten page html arts s).
Proof.
  split; simpl; try done.
  - eexists. split; [reflexivity|]. repeat constructor.
  - intros p Hp. now rewrite lookup_insert_ne.
  - intros p Hp. now rewrite lookup_insert_ne.
Qed.

Lemma isArticleIO_isPageIO e : isArticleIO e → isPageIO e.
Proof. destruct e as [[]| |[]]; simpl; tauto. Qed.

Lemma processPage_step kws page html s :
  step isPageIO (λ p, p = page) s (processPage kws page html s).2.
Proof.
  rewrite processPage_eq.
  destruct (landing (featured html) []) as [[links|] b]; simpl;
    [|apply stopIf_step].
  pose proof (reduceM_store_step kws links [] (stopIf b s)) as St.
  apply (step_mono _ isPageIO _ (λ p, p = page)) in St;
    [|apply isArticleIO_isPageIO|done].
  destruct (reduceM _ links [] _) as [[arts|] s2]; simpl in *.
  - eapply step_trans; [apply stopIf_step|].
    eapply step_trans; [exact St|apply pageWritten_step].
  - eapply step_trans; [apply stopIf_step|exact St].
Qed.

Lemma readPage_eq page s :
  readPage page s =
  match pageFiles (disk s) !! page with
  | Some html => (Val html, s)
  | None => (Val (web (ListingPage page)),
             {| done := done s; disk := disk s;
                trace := trace s ++ [Fetch (ListingPage page)] |})
  end.
Proof.
  unfold readPage, tryCatch, readFile.
  now destruct (pageFiles (disk s) !! page).
Qed.

End Page.

(** ** The pagination *)

Section Driver.
Context `{Runtime}.

(** The body of [getArticlesRecursively]. *)
Lemma getArticlesRecursivelyWith_eq kws page acc stop s :
  getArticlesRecursivelyWith kws page acc stop s =
  if negb (done s) && (page <=? stop) then
    match readPage page s with
    | (Val html, s1) =>
        if nonEmpty html then
          match processPage kws page html s1 with
          | (Val articlesForPage, s2) =>
              getArticlesRecursivelyWith kws (page + 1) (acc ++ articlesForPage) stop s2
          | (Throw, s2) => (Throw, s2)
          end
        else (Val acc, s1)
    | (Throw, s1) => (Throw, s1)
    end
  else finish acc s.
Proof.
  rewrite getArticlesRecursivelyWith_equation_1.
  cut (∀ b (e : negb (done s) && (page <=? stop) = b),
    getArticlesRecursivelyWith_unfold_clause_1 kws page acc stop s (b ↾ e) =
    if b then
      match readPage page s with
      | (Val html, s1) =>
        if nonEmpty html then
          match processPage kws page html s1 with
          | (Val articlesForPage, s2) =>
              getArticlesRecursivelyWith kws (page + 1) (acc ++ articlesForPage) stop s2
          | (Throw, s2) => (Throw, s2)
          end
        else (Val acc, s1)
      | (Throw, s1) => (Throw, s1)
      end
    else finish acc s).
  { intros Hb. apply Hb. }
  intros [] e; simp getArticlesRecursivelyWith; [reflexivity|].
  unfold finish, bind, writeAllJson, writeInSources.
  now destruct (dirExists (disk s)).
Qed.

Lemma readPage_val page s : ∃ html s1, readPage page s = (Val html, s1).
Proof. rewrite readPage_eq. destruct (pageFiles (disk s) !! page); eauto. Qed.

(** Induction along the pages the pagination visits. *)
Lemma pagination_ind kws stop
  (P : Z → list Rec → State → Res (list Rec) * State → Prop) :
  (∀ page acc s,
     negb (done s) && (page <=? stop) = false →
     P page acc s (finish acc s)) →
  (∀ page acc s html s1,
     negb (done s) && (page <=? stop) = true →
     readPage page s = (Val html, s1) → nonEmpty html = false →
     P page acc s (Val acc, s1)) →
  (∀ page acc s html s1 s2,
     negb (done s) && (page <=? stop) = true →
     readPage page s = (Val html, s1) → nonEmpty html = true →
     processPage kws page html s1 = (Throw, s2) →
     P page acc s (Throw, s2)) →
  (∀ page acc s html s1 arts s2,
     negb (done s) && (page <=? stop) = true →
     readPage page s = (Val html, s1) → nonEmpty html = true →
     processPage kws page html s1 = (Val arts, s2) →
     P (page + 1) (acc ++ arts) s2
       (getArticlesRecursivelyWith kws (page + 1) (acc ++ arts) stop s2) →
     P page acc s
       (getArticlesRecursivelyWith kws (page + 1) (acc ++ arts) stop s2)) →
  ∀ page acc s, P page acc s (getArticlesRecursivelyWith kws page acc stop s).
Proof.
  intros Hdone Hempty Hthrow Hnext page.
  remember (Z.to_nat (stop + 1 - page)) as n eqn:Hn. revert page Hn.
  induction n as [n IH] using lt_wf_ind. intros page Hn acc s.
  rewrite getArticlesRecursivelyWith_eq.
  destruct (negb (done s) && (page <=? stop)) eqn:Hgo; [|now apply Hdone].
  destruct (readPage_val page s) as (html & s1 & Hread). rewrite Hread.
  destruct (nonEmpty html) eqn:Hne; [|eapply Hempty; eassumption].
  destruct (processPage kws page html s1) as [[arts|] s2] eqn:Hpage;
    [|eapply Hthrow; eassumption].
  eapply Hnext; try eassumption.
  apply andb_prop in Hgo as [_ Hle%Z.leb_le].
  eapply (IH (Z.to_nat (stop + 1 - (page + 1)))); [lia|reflexivity].
Qed.

Lemma readPage_step page s :
  step (λ e, e = Fetch (ListingPage page)) (λ _, False) s (readPage page s).2.
Proof.
  rewrite readPage_eq. destruct (pageFiles (disk s) !! page); simpl.
  - apply step_refl.
  - split; simpl; try done. eexists. split; [reflexivity|]. now repeat constructor.
Qed.

Lemma allWritten_step acc s :
  step (λ e, e = Write AllJson) (λ _, False) s (allWritten acc s).
Proof.
  split; simpl; try done. eexists. split; [reflexivity|]. now repeat constructor.
Qed.

(** The write of the aggregate goes well exactly when the directory is
    there. *)
Lemma finish_val acc s result sF :
  finish acc s = (Val result, sF) →
  dirExists (disk s) = true ∧ result = acc ∧ sF = allWritten acc s.
Proof. unfold finish. destruct (dirExists (disk s)); [|done]. now intros [= <- <-]. Qed.

Lemma finish_there acc s :
  dirExists (disk s) = true → finish acc s = (Val acc, allWritten acc s).
Proof. unfold finish. now intros ->. Qed.

Lemma finish_step acc s :
  step (λ e, e = Write AllJson) (λ _, False) s (finish acc s).2.
Proof.
  unfold finish. destruct (dirExists (disk s)); simpl;
    [apply allWritten_step|apply step_refl].
Qed.

Lemma dirExists_made d : sourcesDir d = true → dirExists d = true.
Proof. unfold dirExists. now intros ->. Qed.

Lemma dirExists_aggregate d l : allJson d = Some l → dirExists d = true.
Proof. unfold dirExists. intros ->. now rewrite !orb_true_r. Qed.

(** From page [page] on, the pagination leaves alone the page files and
    page results of the earlier pages, and every meta file that holds an
    extraction result. *)
Lemma pagination_step kws stop page acc s :
  step (λ _, True) (λ p, page <= p) s
       (getArticlesRecursivelyWith kws page acc stop s).2.
Proof.
  revert page acc s. apply (pagination_ind kws stop
    (λ page acc s out, step (λ _, True) (λ p, page <= p) s out.2)).
  - intros page acc s _.
    eapply step_mono; [| |apply finish_step]; done.
  - intros page acc s html s1 _ Hread _. simpl.
    pose proof (readPage_step page s) as St. rewrite Hread in St.
    eapply step_mono; [| |exact St]; done.
  - intros page acc s html s1 s2 _ Hread _ Hpage. simpl.
    pose proof (readPage_step page s) as St1. rewrite Hread in St1.
    pose proof (processPage_step kws page html s1) as St2. rewrite Hpage in St2.
    eapply step_trans.
    + eapply step_mono; [| |exact St1]; done.
    + eapply step_mono; [| |exact St2]; simpl; [done|lia].
  - intros page acc s html s1 arts s2 _ Hread _ Hpage IH.
    pose proof (readPage_step page s) as St1. rewrite Hread in St1.
    pose proof (processPage_step kws page html s1) as St2. rewrite Hpage in St2.
    eapply step_trans; [|eapply step_trans].
    + eapply step_mono; [| |exact St1]; done.
    + eapply step_mono; [| |exact St2]; simpl; [done|lia].
    + eapply step_mono; [| |exact IH]; simpl; [done|lia].
Qed.

(** What the pagination returns extends the accumulator it was given. *)
Lemma pagination_acc kws stop page acc s accF sF :
  getArticlesRecursivelyWith kws page acc stop s = (Val accF, sF) →
  ∃ rest, accF = acc ++ rest.
Proof.
  revert page acc s. apply (pagination_ind kws stop
    (λ page acc s out, out = (Val accF, sF) → ∃ rest, accF = acc ++ rest)).
  - intros page acc s _ (_ & <- & _)%finish_val. exists []. now rewrite app_nil_r.
  - intros page acc s html s1 _ _ _ [= <- _]. exists []. now rewrite app_nil_r.
  - done.
  - intros page acc s html s1 arts s2 _ _ _ _ IH Hout.
    destruct (IH Hout) as [rest ->]. exists (arts ++ rest). now rewrite app_assoc.
Qed.

End Driver.

(** ** Replaying a run on the files it left *)

Section Replay.
Context `{Runtime}.

Lemma storeStep_done kws acc p s : done (storeStep kws acc p s).2 = done s.
Proof. now destruct (storeStep_cases kws acc p s). Qed.

Lemma reduceM_store_done kws links acc s :
  done (reduceM (storeStep kws) links acc s).2 = done s.
Proof.
  revert acc s. induction links as [|p links IH]; intros acc s; simpl; [done|].
  unfold bind. pose proof (storeStep_done kws acc p s) as Hd.
  destruct (storeStep kws acc p s) as [[l|] s1]; simpl in *; [|done].
  now rewrite IH.
Qed.

Lemma readPage_done page s : done (readPage page s).2 = done s.
Proof. rewrite readPage_eq. now destruct (pageFiles (disk s) !! page). Qed.

Lemma readPage_disk page s : disk (readPage page s).2 = disk s.
Proof. rewrite readPage_eq. now destruct (pageFiles (disk s) !! page). Qed.

Lemma disk_eta (d : Disk) :
  {| metaFiles := metaFiles d; htmlFiles := htmlFiles d;
     sourcesDir := sourcesDir d; pageFiles := pageFiles d;
     pageJson := pageJson d; allJson := allJson d |} = d.
Proof. now destruct d. Qed.

(** A run that ended well, replayed from the page it started at, on the
    files it left, with the flag as it was: when every entry returned
    carries an extraction result, the replay returns the same entries,
    leaves the files as they are, and neither fetches a detail page nor
    calls the extraction. *)
Lemma pagination_replay kws stop page acc s accF sF :
  getArticlesRecursivelyWith kws page acc stop s = (Val accF, sF) →
  Forall (λ rec, truthy (r_victims rec) = true) accF →
  ∀ t, disk t = disk sF → done t = done s →
  ∃ t', getArticlesRecursivelyWith kws page acc stop t = (Val accF, t')
        ∧ disk t' = disk sF
        ∧ ∃ evs, trace t' = trace t ++ evs
                 ∧ Forall (λ e, isDetailWork e = false) evs.
Proof.
  intros Hout Htruthy. revert page acc s Hout.
  apply (pagination_ind kws stop (λ page acc s out,
    out = (Val accF, sF) →
    ∀ t, disk t = disk sF → done t = done s →
    ∃ t', getArticlesRecursivelyWith kws page acc stop t = (Val accF, t')
          ∧ disk t' = disk sF
          ∧ ∃ evs, trace t' = trace t ++ evs
                   ∧ Forall (λ e, isDetailWork e = false) evs)).
  - (* the aggregate is written *)
    intros page acc s Hgo (Hdir & <- & ->)%finish_val t Hdisk Hdone.
    rewrite getArticlesRecursivelyWith_eq, Hdone, Hgo.
    rewrite finish_there by (rewrite Hdisk; now apply (dirExists_aggregate _ accF)).
    eexists. split; [reflexivity|]. split.
    + simpl in *. rewrite Hdisk. reflexivity.
    + eexists. split; [reflexivity|]. now repeat constructor.
  - (* the page is empty *)
    intros page acc s html s1 Hgo Hread Hne [= <- <-] t Hdisk Hdone.
    pose proof (readPage_disk page s) as Hd1. rewrite Hread in Hd1. simpl in Hd1.
    rewrite getArticlesRecursivelyWith_eq, Hdone, Hgo.
    rewrite readPage_eq in Hread |- *. rewrite Hdisk, Hd1.
    destruct (pageFiles (disk s) !! page) as [html'|]; injection Hread as <- <-;
      rewrite Hne.
    + eexists. split; [reflexivity|]. split; [done|].
      exists []. now rewrite app_nil_r.
    + eexists. split; [reflexivity|]. split; [done|].
      eexists. split; [reflexivity|]. now repeat constructor.
  - done.
  - (* a page is processed *)
    intros page acc s html s1 arts s2 Hgo Hread Hne Hpage IH Hout t Hdisk Hdone.
    pose proof (pagination_step kws stop (page + 1) (acc ++ arts) s2) as Strest.
    rewrite Hout in Strest. simpl in Strest.
    destruct (pagination_acc _ _ _ _ _ _ _ Hout) as [rest ->].
    apply Forall_app in Htruthy as [[_ Harts]%Forall_app _].
    pose proof (readPage_done page s) as Hd1. rewrite Hread in Hd1. simpl in Hd1.
    rewrite processPage_eq in Hpage.
    destruct (landing (featured html) []) as [[links|] b] eqn:Hland; [|done].
    destruct (reduceM (storeStep kws) links [] (stopIf b s1)) as [[arts'|] s2'] eqn:Hstore;
      [|done].
    injection Hpage as -> <-.
    pose proof (pageWritten_step page html arts s2') as Stw.
    assert (pageFiles (disk sF) !! page = Some html) as Hpf.
    { rewrite (step_pageFiles _ _ _ _ Strest) by lia. simpl. apply lookup_insert_eq. }
    assert (pageJson (disk sF) !! page = Some arts) as Hpj.
    { rewrite (step_pageJson _ _ _ _ Strest) by lia. simpl. apply lookup_insert_eq. }
    assert (Forall (λ rec, cachedVictims (disk sF) (r_date rec) (r_headline rec)
                           = Some (r_victims rec)) arts) as Hcached.
    { pose proof (store_run_cached _ _ _ _ _ Hstore) as Hc.
      rewrite Forall_forall in Hc, Harts. apply Forall_forall. intros rec Hrec.
      eapply cached_stable; [exact Strest|].
      eapply cached_stable; [exact Stw|]. auto. }
    assert (reduceM (storeStep kws) links [] (stopIf b t) = (Val arts, stopIf b t)) as Hrep.
    { eapply store_replay; [exact Hstore|]. simpl. now rewrite Hdisk. }
    pose proof (reduceM_store_done kws links [] (stopIf b s1)) as Hd2.
    rewrite Hstore in Hd2. simpl in Hd2.
    assert (sourcesDir (disk sF) = true) as Hsd
      by (now apply (step_dir _ _ _ _ Strest)).
    destruct (IH Hout (pageWritten page html arts (stopIf b t))) as (t' & Hrun & Hdt & evs & Htr & Hevs).
    { simpl. rewrite Hdisk, (insert_id _ _ _ Hpf), (insert_id _ _ _ Hpj), <- Hsd.
      apply disk_eta. }
    { simpl. now rewrite Hd2, Hdone, Hd1. }
    exists t'. split; [|split; [done|]].
    + rewrite getArticlesRecursivelyWith_eq, Hdone, Hgo, readPage_eq, Hdisk, Hpf, Hne.
      rewrite processPage_eq, Hland, Hrep. exact Hrun.
    + eexists. split; [rewrite Htr; simpl; rewrite <- app_assoc; reflexivity|].
      now repeat constructor.
Qed.

End Replay.

(** ** The pages the pagination processes *)

Section Bound.
Context `{Runtime}.







End Bound.

(** * The claims *)

(** ** C4: the cache key *)

Lemma store_run_paths `{Runtime} kws links s res s' :
  reduceM (storeStep kws) links [] s = (Val res, s') →
  Forall (λ rec, r_htmlFile rec = recordPath (r_date rec) (r_headline rec)) res.
Proof.
  revert s res. induction links as [|p links IH]; intros s res; simpl.
  - intros [= <- <-]. constructor.
  - unfold bind.
    destruct (storeStep_cases kws [] p s) as [Hh Hk|Hs|h v Hh Hk Hc|h Hh Hk Hc];
      [done|apply IH|..];
      rewrite reduceM_store_acc;
      destruct (reduceM _ links [] _) as [[l|] s1] eqn:Hrun; try done;
      simpl; intros [= <- <-]; (constructor; [done|exact (IH _ _ Hrun)]).
Qed.

(** C4. The cache key of a headline is the classic rolling string hash:
    it starts at 0 and each code unit takes it to [hash * 31 + code],
    truncated to 32 signed bits; it is a function of the headline alone,
    and the key under which [getAndStoreArticlesFromLinks] files an entry
    is the hash of the headline of the entry, whatever its link and date. *)
Theorem hash_is_the_classic_string_hash :
  hash [] = 0
  ∧ (∀ str c, hash (str ++ [c]) = wrap32 (hash str * 31 + c))
  ∧ (∀ str, hash str = Spec.classicHash str)
  ∧ (∀ str, - 2 ^ 31 <= hash str < 2 ^ 31)
  ∧ (∀ (W : Runtime) kws links s res s',
       getAndStoreArticlesFromLinksWith kws links s = (Val res, s') →
       Forall (λ rec, (r_htmlFile rec).2 = hash (r_headline rec)) res).
Proof.
  split; [done|]. split; [apply hash_snoc|]. split; [apply hash_classic|].
  split; [apply hash_range|].
  intros W kws links s res s' Hrun. apply store_run_paths in Hrun.
  eapply Forall_impl; [exact Hrun|]. now intros rec ->.
Qed.

Lemma hash_is_the_classic_string_hash_witness :
  hash (js "Boy killed in strike") = Spec.classicHash (js "Boy killed in strike")
  ∧ Forall (λ rec, (r_htmlFile rec).2 = hash (r_headline rec))
      (match (@getAndStoreArticlesFromLinksWith Cases.steady keywords
                [Cases.summary Cases.jan05; Cases.summary Cases.jan03] Demo.fresh).1 with
       | Val res => res
       | Throw => []
       end).
Proof.
  destruct hash_is_the_classic_string_hash as (_ & _ & Hclassic & _ & Hkey).
  split; [apply Hclassic|].
  destruct (@getAndStoreArticlesFromLinksWith Cases.steady keywords
              [Cases.summary Cases.jan05; Cases.summary Cases.jan03] Demo.fresh)
    as [[res|] s'] eqn:Hrun; simpl; [|constructor].
  exact (Hkey Cases.steady _ _ _ _ _ Hrun).
Defined.

(** ** C10: the name variations *)

(** C10. For a non-empty name, [getNameVariations] returns a non-empty
    list that contains the name itself; for a name without a space it
    returns the one-element list of the name. *)
Theorem getNameVariations_contains_the_name fullName :
  fullName ≠ [] →
  NameSearch.getNameVariations fullName ≠ []
  ∧ fullName ∈ NameSearch.getNameVariations fullName
  ∧ (SPACE ∉ fullName → NameSearch.getNameVariations fullName = [fullName]).
Proof.
  intros _. pose proof (getNameVariations_last fullName) as Hlast.
  split; [|split].
  - intros E. now rewrite E in Hlast.
  - destruct (NameSearch.getNameVariations fullName) as [|x l] using rev_ind; [done|].
    rewrite last_snoc in Hlast. injection Hlast as ->.
    apply elem_of_app. right. now left.
  - intros Hs. unfold NameSearch.getNameVariations, split.
    now rewrite splitOn_no_sep.
Qed.

Lemma getNameVariations_contains_the_name_witness :
  js "Ahmad Ali Hassan" ∈ NameSearch.getNameVariations (js "Ahmad Ali Hassan")
  ∧ NameSearch.getNameVariations (js "Ahmad") = [js "Ahmad"].
Proof.
  split.
  - apply (getNameVariations_contains_the_name (js "Ahmad Ali Hassan")). done.
  - apply (getNameVariations_contains_the_name (js "Ahmad")); [done|].
    vm_compute. intros Hin. repeat (apply elem_of_cons in Hin as [Hin|Hin]; [done|]).
    now apply elem_of_nil in Hin.
Defined.

(** ** C6: the date of a listing entry *)

(** As the claim states it, the date is the text before the first
    separator, with the runs of white space collapsed. On a field with a
    second separator on the line of the date [getDate] returns more than
    that, and a run of white space inside the date is taken out, with no
    space left in its place. *)
Lemma getDate_goes_to_the_last_separator :
  getDate Cases.twoSeparators = js "January 20, 2024- Location: West Bank"
  ∧ Spec.getDateUpToFirstSeparator Cases.twoSeparators = js "January 20, 2024"
  ∧ getDate Cases.twoSeparators ≠ Spec.getDateUpToFirstSeparator Cases.twoSeparators
  ∧ getDate (js "January  20, 2024 - Location:") = js "January20, 2024".
Proof. now vm_compute. Qed.

(** The runs of white space are taken out, not turned into one space. *)
Example getDate_deletes_runs :
  getDate (js "January  20, 2024 - Location:") = js "January20, 2024".
Proof. reflexivity. Qed.

(** C6 (amended). [getDate] takes out every run of two or more white
    space characters and puts nothing in its place. Of the field so
    cleaned it takes the first line that has a hyphen, up to the last
    hyphen of that line, and trims it: whole lines without a hyphen are
    passed over. A cleaned field with a hyphen always divides in this way,
    and a field without one gives the empty string. For the field
    "January 20, 2024 \n - Location: West Bank" the result is the string
    "January 20, 2024", and "January 20 2024" in the earlier scripts, which
    take the commas out as well. *)
Theorem getDate_is_the_text_up_to_the_last_hyphen :
  (∀ a ws b,
     (∀ c, last a = Some c → isSpace c = false) →
     Forall (λ c, isSpace c = true) ws → (2 ≤ length ws)%nat →
     (∀ c, head b = Some c → isSpace c = false) →
     replaceRuns false [] [] (a ++ ws ++ b)
     = replaceRuns false [] [] a ++ replaceRuns false [] [] b)
  ∧ (∀ dateString skipped pre post,
       firstHyphenLine (replaceRuns false [] [] dateString) skipped pre post →
       getDate dateString = trim pre)
  ∧ (∀ dateString,
       HYPHEN ∈ replaceRuns false [] [] dateString →
       ∃ skipped pre post,
         firstHyphenLine (replaceRuns false [] [] dateString) skipped pre post)
  ∧ (∀ dateString,
       HYPHEN ∉ replaceRuns false [] [] dateString → getDate dateString = [])
  ∧ getDate Cases.westBank = js "January 20, 2024"
  ∧ Sites.getDate Cases.westBank = js "January 20 2024".
Proof.
  split_and!.
  - apply replaceRuns_deletes.
  - intros dateString skipped pre post Hline. unfold getDate.
    now rewrite (execFirstLine_first_hyphen_line _ _ _ _ Hline).
  - intros dateString Hin.
    destruct (execFirstLine_some _ Hin) as [m Hm].
    destruct (execFirstLine_inv _ _ Hm) as (skipped & post & Hline).
    now exists skipped, m, post.
  - intros dateString Hnot. unfold getDate.
    now rewrite execFirstLine_no_hyphen.
  - now vm_compute.
  - now vm_compute.
Qed.

Lemma getDate_is_the_text_up_to_the_last_hyphen_witness :
  getDate Cases.secondLine = trim (js "January 05, 2024 ").
Proof.
  apply (proj1 (proj2 getDate_is_the_text_up_to_the_last_hyphen)
           Cases.secondLine [LF] (js "January 05, 2024 ") (js " Location:")).
  split_and!.
  - reflexivity.
  - vm_compute. intros Hin.
    repeat (apply elem_of_cons in Hin as [Hin|Hin]; [done|]).
    now apply elem_of_nil in Hin.
  - right. exists [], LF. now split.
  - intros c Hc. vm_compute in Hc.
    repeat (apply elem_of_cons in Hc as [->|Hc]; [reflexivity|]).
    now apply elem_of_nil in Hc.
  - vm_compute. intros Hin.
    repeat (apply elem_of_cons in Hin as [Hin|Hin]; [done|]).
    now apply elem_of_nil in Hin.
Defined.

(** ** C3: a date that cannot be read *)

Section Unreadable.
Context `{Runtime}.

Lemma landing_val_dated articles acc l :
  (landing articles acc).1 = Val l → Forall (λ a, is_Some (dateText a)) articles.
Proof.
  revert acc. induction articles as [|a t IH]; intros acc; simpl; [constructor|].
  unfold summaryOf at 1. destruct (dateText a) as [d|] eqn:Hd; simpl; [|done].
  intros Hl. constructor; [eauto|].
  destruct (afterCutoff _); eauto.
Qed.

Lemma landing_stops articles acc l a p :
  (landing articles acc).1 = Val l →
  a ∈ articles → summaryOf a = Some p → afterCutoff p = false →
  (landing articles acc).2 = true.
Proof.
  intros Hl Ha Hp Hcut. apply landing_val_dated in Hl.
  rewrite landing_dated by done. simpl.
  apply existsb_exists. exists p. split; [|now rewrite Hcut].
  apply list_elem_of_In, list_elem_of_omap. eauto.
Qed.

(** A page that holds a summary not after the cutoff is the last one: once
    it is processed the flag is up and the next turn only writes the
    aggregate. *)
Lemma last_page kws page acc stop s html s1 arts s2 a p :
  done s = false → page <= stop →
  readPage page s = (Val html, s1) → nonEmpty html = true →
  processPage kws page html s1 = (Val arts, s2) →
  a ∈ featured html → summaryOf a = Some p → afterCutoff p = false →
  done s2 = true
  ∧ getArticlesRecursivelyWith kws page acc stop s
    = (Val (acc ++ arts), allWritten (acc ++ arts) s2).
Proof.
  intros Hdone Hle Hread Hne Hpage Ha Hp Hcut.
  assert (done s2 = true) as Hd2.
  { rewrite processPage_eq in Hpage.
    destruct (landing (featured html) []) as [[links|] b] eqn:Hland; [|done].
    assert (b = true) as ->.
    { change b with (Val links, b).2. rewrite <- Hland.
      eapply landing_stops; eauto. now rewrite Hland. }
    pose proof (reduceM_store_done kws links [] (stopIf true s1)) as Hd.
    destruct (reduceM _ links [] _) as [[arts'|] s2']; [|done].
    injection Hpage as _ <-. simpl in *. rewrite Hd. apply orb_true_r. }
  split; [done|].
  rewrite getArticlesRecursivelyWith_eq, Hdone, Hread, Hne, Hpage.
  simpl. destruct (page <=? stop) eqn:E; [|lia].
  rewrite getArticlesRecursivelyWith_eq, Hd2. simpl.
  apply finish_there, dirExists_made. eapply processPage_made. exact Hpage.
Qed.

End Unreadable.

(** As the claim states it, a summary whose date cannot be read does not
    raise the flag and the crawl goes on. Here the first summary of page 1
    has such a date: the flag is up after the page and page 2 is never
    fetched. *)
Lemma unreadable_date_stops_the_crawl :
  Demo.time (getDate (Demo.dateField "Last week")) = None
  ∧ done (@getDciLinksFromLanding Cases.unreadable [1] Demo.fresh).2 = true
  ∧ (@getDciLinksFromLanding Cases.unreadable [1] Demo.fresh).1
    = Val [Cases.summary Cases.jan05]
  ∧ List.filter (λ e, match e with Fetch (ListingPage _) => true | _ => false end)
      (trace (@getArticlesRecursively Cases.unreadable 1 [] 3 Demo.fresh).2)
    = [Fetch (ListingPage 1)].
Proof. now vm_compute. Qed.

(** C3 (amended). In the pipeline a summary whose date field is there but
    cannot be read as a date is skipped, and it raises the flag just as a
    summary dated on or before the cutoff does: the rest of the page is
    still gone through, and the page is the last one of the crawl. *)
Theorem unreadable_date_is_skipped_and_stops `{Runtime} article dateDirty :
  dateText article = Some dateDirty →
  dateTime (getDate dateDirty) = None →
  (∀ acc s, landingStep acc article s = (Val acc, stopIf true s))
  ∧ (∀ kws page acc stop s html s1 arts s2,
       done s = false → page <= stop →
       readPage page s = (Val html, s1) → nonEmpty html = true →
       article ∈ featured html →
       processPage kws page html s1 = (Val arts, s2) →
       getArticlesRecursivelyWith kws page acc stop s
       = (Val (acc ++ arts), allWritten (acc ++ arts) s2)).
Proof.
  intros Hd Ht.
  assert (∃ p, summaryOf article = Some p ∧ afterCutoff p = false) as (p & Hp & Hcut).
  { unfold summaryOf. rewrite Hd. eexists. split; [reflexivity|].
    unfold afterCutoff, relevant. simpl. now rewrite Ht. }
  split.
  - intros acc s. now rewrite landingStep_eq, Hp, Hcut.
  - intros kws page acc stop s html s1 arts s2 Hdone Hle Hread Hne Hin Hpage.
    eapply last_page; eauto.
Qed.

Lemma unreadable_date_is_skipped_and_stops_witness :
  @landingStep Cases.unreadable [] Cases.lastWeek Demo.fresh
  = (Val [], stopIf true Demo.fresh).
Proof.
  apply (@unreadable_date_is_skipped_and_stops Cases.unreadable Cases.lastWeek
           (Demo.dateField "Last week")); reflexivity.
Defined.

(** The earlier script skips such a summary as well and raises a flag that
    nothing reads. *)
Lemma linkStep_unreadable `{Runtime} acc flag article dateDirty :
  dateText article = Some dateDirty →
  dateTime (Sites.getDate dateDirty) = None →
  Sites.linkStep (acc, flag) article = Some (acc, true).
Proof. intros Hd Ht. unfold Sites.linkStep. now rewrite Hd, Ht. Qed.

(** The headless script has no flag. It reads the year and the month off
    the words of the string, so it keeps a date whose month is no month
    when the year is after 2023. *)
Example grab_keeps_an_unreadable_date :
  Demo.time (Sites.getDate (Demo.dateField "Smarch 20, 2024")) = None
  ∧ Headless.payloads
      [ {| Headless.date_string := Some (Demo.dateField "Smarch 20, 2024");
           Headless.s_headline := js "h"; Headless.s_link := js "/l" |};
        {| Headless.date_string := Some (Demo.dateField "Last week");
           Headless.s_headline := js "i"; Headless.s_link := js "/m" |} ] []
    = Some [(js "h", js "/l", js "Smarch 20 2024")].
Proof. now vm_compute. Qed.

(** ** C1: the cutoff *)

Section Cutoff.
Context `{Runtime}.

Lemma dateDescending_tail p l : dateDescending (p :: l) → dateDescending l.
Proof.
  intros Hd i j a b Hij Ha Hb. apply (Hd (S i) (S j) a b); [lia|done..].
Qed.

Lemma filter_none {A} (f : A → bool) l :
  (∀ x, x ∈ l → f x = false) → List.filter f l = [].
Proof.
  induction l as [|x l IH]; intros Hl; simpl; [done|].
  rewrite (Hl x) by left. apply IH. intros y Hy. apply Hl. now right.
Qed.

(** On a page in descending order nothing after the first summary that is
    not after the cutoff is after the cutoff. *)
Lemma filter_descending l :
  dateDescending l →
  List.filter afterCutoff l = Spec.beforeFirstPastCutoff afterCutoff l.
Proof.
  induction l as [|p l IH]; intros Hd; simpl; [done|].
  destruct (afterCutoff p) eqn:Hp.
  - f_equal. apply IH. eapply dateDescending_tail, Hd.
  - clear IH. apply filter_none. intros q Hq.
    apply list_elem_of_lookup in Hq as [j Hj].
    destruct (Hd 0%nat (S j) p q) as (tp & tq & Htp & Htq & Hle);
      [lia|reflexivity|exact Hj|].
    unfold afterCutoff, relevant in *. rewrite Htp in Hp. rewrite Htq.
    destruct cutoff as [c|]; simpl in *; [|done].
    apply Z.ltb_ge in Hp. apply Z.ltb_ge. lia.
Qed.

End Cutoff.

(** As the claim states it, everything after the first summary dated on or
    before the cutoff is left out. Here the second summary of the page is
    dated before the cutoff and the third one after it: the third one is
    kept. *)
Lemma summary_after_a_past_cutoff_one_is_kept :
  (@getDciLinksFromLanding Cases.shuffled [1] Demo.fresh).1
  = Val [Cases.summary Cases.jan05; Cases.summary Cases.jan03]
  ∧ Spec.beforeFirstPastCutoff (@afterCutoff Cases.shuffled)
      (omap summaryOf (@featured Cases.shuffled [1]))
    = [Cases.summary Cases.jan05]
  ∧ (@getDciLinksFromLanding Cases.shuffled [1] Demo.fresh).1
    ≠ Val (Spec.beforeFirstPastCutoff (@afterCutoff Cases.shuffled)
             (omap summaryOf (@featured Cases.shuffled [1]))).
Proof. now vm_compute. Qed.

(** The page of the example of the specification: the first two summaries
    are the candidates, the flag is up, page 2 is never fetched. *)
Example stop_on_the_descending_page :
  @getDciLinksFromLanding Cases.descending [1] Demo.fresh
  = (Val [Cases.summary Cases.jan05; Cases.summary Cases.jan03],
     stopIf true Demo.fresh)
  ∧ List.filter (λ e, match e with Fetch (ListingPage _) => true | _ => false end)
      (trace (@getArticlesRecursively Cases.descending 1 [] 3 Demo.fresh).2)
    = [Fetch (ListingPage 1)].
Proof. now vm_compute. Qed.

(** C1 (amended). On a page whose articles all have a date field, a
    summary is a candidate exactly when it is dated after the cutoff,
    wherever it stands on the page: a summary dated on or before the cutoff
    is left out and raises the flag, the summaries after it are still
    tested one by one. When the page is in descending order of date the
    candidates are the summaries before the first one that is not after
    the cutoff. Once a page with a summary not after the cutoff is
    processed the flag is up, no further page is read or fetched, and the
    aggregate is written. *)
Theorem candidates_are_the_summaries_after_the_cutoff `{Runtime} html :
  Forall (λ a, is_Some (dateText a)) (featured html) →
  (∀ s, getDciLinksFromLanding html s
        = (Val (List.filter afterCutoff (omap summaryOf (featured html))),
           stopIf (existsb (λ p, negb (afterCutoff p)) (omap summaryOf (featured html))) s))
  ∧ (dateDescending (omap summaryOf (featured html)) →
     List.filter afterCutoff (omap summaryOf (featured html))
     = Spec.beforeFirstPastCutoff afterCutoff (omap summaryOf (featured html)))
  ∧ (∀ p kws page acc stop s s1 arts s2,
       p ∈ omap summaryOf (featured html) → afterCutoff p = false →
       done s = false → page <= stop →
       readPage page s = (Val html, s1) → nonEmpty html = true →
       processPage kws page html s1 = (Val arts, s2) →
       done s2 = true
       ∧ getArticlesRecursivelyWith kws page acc stop s
         = (Val (acc ++ arts), allWritten (acc ++ arts) s2)).
Proof.
  intros Hdated. split; [|split].
  - intros s. unfold getDciLinksFromLanding.
    now rewrite landing_run, landing_dated.
  - apply filter_descending.
  - intros p kws page acc stop s s1 arts s2 Hp Hcut Hdone Hle Hread Hne Hpage.
    apply list_elem_of_omap in Hp as (a & Ha & Hsum).
    eapply last_page; eauto.
Qed.

Lemma candidates_are_the_summaries_after_the_cutoff_witness :
  @getDciLinksFromLanding Cases.descending [1] Demo.fresh
  = (Val (List.filter (@afterCutoff Cases.descending)
            (omap summaryOf (@featured Cases.descending [1]))),
     stopIf (existsb (λ p, negb (@afterCutoff Cases.descending p))
               (omap summaryOf (@featured Cases.descending [1]))) Demo.fresh).
Proof.
  apply (@candidates_are_the_summaries_after_the_cutoff Cases.descending [1]).
  vm_compute. repeat constructor; eexists; reflexivity.
Defined.

(** ** C7: an extraction that fails *)

(** As the claim states it, a malformed answer of the extraction leaves a
    record with a null result. Here the answer is a tool call whose
    arguments parse but have no [results]: the record is written and the
    run goes on, but [victims] is undefined, so the record on file has no
    such member; it is not null. *)
Lemma answer_without_results_is_cached_without_victims :
  let p := Cases.summary Cases.jan05 in
  let out := @storeStep Cases.schemaless keywords [] p Demo.fresh in
  (r_victims <$> match out.1 with Val l => l | Throw => [] end) = [Undefined]
  ∧ r_victims <$> (metaFiles (disk out.2)
                     !! @recordPath Cases.schemaless (p_date p) (js "Boy killed in strike"))
    = Some Undefined
  ∧ Undefined ≠ Null.
Proof. now vm_compute. Qed.

(** C7 (amended). For a summary that passes the keyword test and has no
    extraction result on file, whatever the extraction comes to the turn
    returns: it writes the fetched page to the html file and a record to
    the meta file, leaves the flag alone, and the remaining summaries are
    gone through. The record has [victims] null when the extraction fails
    (no content to read, an exchange that errors, an answer without tool
    call or with arguments that do not parse); it has no [victims] when
    the arguments parse but hold no [results]. Either way the meta file
    holds no extraction result for the next run. *)
Theorem failed_extraction_is_cached_and_the_run_goes_on `{Runtime} kws p headline s :
  p_headline p = Some headline → someKeyword kws headline = true →
  cachedVictims (disk s) (p_date p) headline = None →
  let tr := trace s ++ [Fetch (Detail (p_link p))] in
  let html := web (Detail (p_link p)) in
  let record := {| r_headline := headline; r_date := p_date p; r_link := p_link p;
                   r_htmlFile := recordPath (p_date p) headline;
                   r_victims := (extraction tr html).1 |} in
  ∃ s', (∀ acc, storeStep kws acc p s = (Val (acc ++ [record]), s'))
        ∧ metaFiles (disk s') !! recordPath (p_date p) headline = Some record
        ∧ htmlFiles (disk s') !! recordPath (p_date p) headline = Some html
        ∧ done s' = done s
        ∧ (∀ rest, getAndStoreArticlesFromLinksWith kws (p :: rest) s
                   = withAcc [record] (getAndStoreArticlesFromLinksWith kws rest s'))
        ∧ (extractionFails tr html → r_victims record = Null)
        ∧ (answerWithoutResults tr html → r_victims record = Undefined)
        ∧ (truthy (r_victims record) = false →
           cachedVictims (disk s') (p_date p) headline = None).
Proof.
  intros Hh Hk Hc tr html record.
  assert (missRecord headline (p_date p) (p_link p) s = record) as Hrec by reflexivity.
  exists (missState headline (p_date p) (p_link p) s). split_and!.
  - intros acc. now rewrite (store_miss _ _ _ _ _ Hh Hk Hc), Hrec.
  - simpl. now rewrite lookup_insert_eq, Hrec.
  - simpl. now rewrite lookup_insert_eq.
  - done.
  - intros rest. unfold getAndStoreArticlesFromLinksWith. simpl. unfold bind.
    rewrite (store_miss _ _ _ _ _ Hh Hk Hc), Hrec. simpl.
    apply reduceM_store_acc.
  - unfold record, extraction, extractionFails. cbn [r_victims].
    destruct (contentBox html); [|done]. now destruct (openai tr (clean l)).
  - unfold record, extraction, answerWithoutResults. cbn [r_victims].
    destruct (contentBox html); [|done]. now intros ->.
  - intros Hf. unfold cachedVictims. cbn [missState disk metaFiles].
    rewrite lookup_insert_eq, Hrec. now rewrite Hf.
Qed.

Lemma failed_extraction_is_cached_and_the_run_goes_on_witness :
  let p := Cases.summary Cases.jan05 in
  let headline := js "Boy killed in strike" in
  let tr := trace Demo.fresh ++ [Fetch (Detail (p_link p))] in
  let html := @web Cases.schemaless (Detail (p_link p)) in
  let record := {| r_headline := headline; r_date := p_date p; r_link := p_link p;
                   r_htmlFile := @recordPath Cases.schemaless (p_date p) headline;
                   r_victims := (@extraction Cases.schemaless tr html).1 |} in
  ∃ s', (∀ acc, @storeStep Cases.schemaless keywords acc p Demo.fresh
                = (Val (acc ++ [record]), s'))
        ∧ r_victims record = Undefined.
Proof.
  intros p headline tr html record.
  destruct (@failed_extraction_is_cached_and_the_run_goes_on Cases.schemaless keywords
              p headline Demo.fresh)
    as (s' & Hstep & _ & _ & _ & _ & _ & Hundef & _); [now vm_compute..|].
  exists s'. split; [exact Hstep|]. apply Hundef. now vm_compute.
Defined.

(** ** C8: the pagination ends *)




(** ** C9: two summaries with one headline *)

Lemma cached_truthy `{Runtime} d date h v :
  cachedVictims d date h = Some v → truthy v = true.
Proof.
  unfold cachedVictims. destruct (metaFiles d !! _) as [r|]; [|done].
  destruct (truthy (r_victims r)) eqn:Ht; [|done]. now intros [= <-].
Qed.

(** As the claim states it, the write for the second summary replaces the
    record of the first. Here both extractions would work: the second
    summary is never fetched, nothing is written for it, the files stay
    those of the first, and the entry returned for the second joins its
    link to the victims of the first. *)
Lemma second_of_two_equal_headlines_is_not_written :
  let out := @getArticlesRecursively Cases.twins 1 [] 1 Demo.fresh in
  let key := (js "2024/January", hash (js "Boy killed in strike")) in
  r_link <$> metaFiles (disk out.2) !! key = Some (apex ++ js "/a")
  ∧ htmlFiles (disk out.2) !! key = Some (js "<p>" ++ apex ++ js "/a")
  ∧ List.filter isDetailWork (trace out.2)
    = [Fetch (Detail (apex ++ js "/a")); Call (js "<p>" ++ apex ++ js "/a")]
  ∧ (r_link <$> match out.1 with Val l => l | Throw => [] end)
    = [apex ++ js "/a"; apex ++ js "/a-update"].
Proof. now vm_compute. Qed.

(** C9 (amended). Two summaries with the same headline have the same
    cache key, and when their dates fall in the same year and month the
    same files. Processing the second after the first does not throw. When
    the record on file holds an extraction result the second summary is a
    cache hit: nothing is fetched or written, the files stay as they are,
    and the entry returned has the link of the second summary and the
    victims on file. Only when the record on file holds no extraction
    result is the second summary fetched and extracted, and then its page
    and record replace the earlier ones. *)
Theorem equal_headlines_share_the_record `{Runtime} kws acc p1 p2 headline s :
  p_headline p1 = Some headline → p_headline p2 = Some headline →
  someKeyword kws headline = true →
  dateDir (p_date p1) = dateDir (p_date p2) →
  ∃ rec1 s1 rec2 s2,
    storeStep kws acc p1 s = (Val (acc ++ [rec1]), s1)
    ∧ storeStep kws (acc ++ [rec1]) p2 s1 = (Val ((acc ++ [rec1]) ++ [rec2]), s2)
    ∧ r_htmlFile rec1 = (dateDir (p_date p1), hash headline)
    ∧ r_htmlFile rec2 = r_htmlFile rec1
    ∧ r_link rec2 = p_link p2
    ∧ (truthy (r_victims rec1) = true →
       s2 = s1 ∧ r_victims rec2 = r_victims rec1)
    ∧ (truthy (r_victims rec1) = false →
       s2 = missState headline (p_date p2) (p_link p2) s1
       ∧ metaFiles (disk s2) !! r_htmlFile rec1 = Some rec2
       ∧ htmlFiles (disk s2) !! r_htmlFile rec1 = Some (web (Detail (p_link p2)))).
Proof.
  intros Hh1 Hh2 Hk Hdir.
  assert (recordPath (p_date p2) headline = recordPath (p_date p1) headline) as Hpath
    by (unfold recordPath; now rewrite Hdir).
  destruct (cachedVictims (disk s) (p_date p1) headline) as [v|] eqn:Hc1.
  - (* the first is a hit, and so is the second *)
    assert (cachedVictims (disk s) (p_date p2) headline = Some v) as Hc2
      by (unfold cachedVictims in *; now rewrite Hpath).
    exists (hitRecord headline (p_date p1) (p_link p1) v), s,
           (hitRecord headline (p_date p2) (p_link p2) v), s.
    rewrite (store_hit _ _ _ _ _ _ Hh1 Hk Hc1), (store_hit _ _ _ _ _ _ Hh2 Hk Hc2).
    simpl. rewrite Hpath. split_and!; try done.
    intros Hf. apply cached_truthy in Hc1. congruence.
  - (* the first is a miss *)
    set (rec1 := missRecord headline (p_date p1) (p_link p1) s).
    set (s1 := missState headline (p_date p1) (p_link p1) s).
    assert (cachedVictims (disk s1) (p_date p2) headline
            = if truthy (r_victims rec1) then Some (r_victims rec1) else None) as Hc2.
    { unfold cachedVictims. rewrite Hpath. unfold s1, missState. simpl.
      now rewrite lookup_insert_eq. }
    destruct (truthy (r_victims rec1)) eqn:Ht.
    + exists rec1, s1, (hitRecord headline (p_date p2) (p_link p2) (r_victims rec1)), s1.
      rewrite (store_miss _ _ _ _ _ Hh1 Hk Hc1), (store_hit _ _ _ _ _ _ Hh2 Hk Hc2).
      simpl. rewrite Hpath. split_and!; try done.
      intros Hf. exfalso. unfold rec1, missRecord in Ht. simpl in Ht. congruence.
    + exists rec1, s1, (missRecord headline (p_date p2) (p_link p2) s1),
             (missState headline (p_date p2) (p_link p2) s1).
      rewrite (store_miss _ _ _ _ _ Hh1 Hk Hc1), (store_miss _ _ _ _ _ Hh2 Hk Hc2).
      simpl. rewrite Hpath. split_and!; try done.
      * intros Hf. exfalso. unfold rec1, missRecord in Ht. simpl in Ht. congruence.
      * intros _. split_and!; [done|apply lookup_insert_eq..].
Qed.

Lemma equal_headlines_share_the_record_witness :
  let p1 := Cases.summary Cases.jan05 in
  let p2 := Cases.summary Cases.twin in
  ∃ rec1 s1 rec2 s2,
    @storeStep Cases.twins keywords [] p1 Demo.fresh = (Val ([] ++ [rec1]), s1)
    ∧ @storeStep Cases.twins keywords ([] ++ [rec1]) p2 s1
      = (Val (([] ++ [rec1]) ++ [rec2]), s2)
    ∧ r_htmlFile rec2 = r_htmlFile rec1
    ∧ r_link rec2 = p_link p2.
Proof.
  intros p1 p2.
  destruct (@equal_headlines_share_the_record Cases.twins keywords [] p1 p2
              (js "Boy killed in strike") Demo.fresh)
    as (rec1 & s1 & rec2 & s2 & H1 & H2 & _ & H3 & H4 & _); [now vm_compute..|].
  exists rec1, s1, rec2, s2. auto.
Defined.

(** ** C2: the second run *)

(** As the claim states it, a second run on the files of the first fetches
    no detail page. Here the extraction fails during the first run: the
    records are written with [victims] null, and the second run fetches
    every detail page again. *)
Lemma second_run_fetches_again_after_failed_extractions :
  let first := @getArticlesRecursively Cases.offline 1 [] 2 Demo.fresh in
  let second := @getArticlesRecursively Cases.offline 1 [] 2 (restart first.2) in
  (r_victims <$> match first.1 with Val l => l | Throw => [] end) = [Null; Null; Null]
  ∧ List.filter (λ e, match e with Fetch (Detail _) => true | _ => false end)
      (trace second.2)
    = [Fetch (Detail (apex ++ js "/a")); Fetch (Detail (apex ++ js "/b"));
       Fetch (Detail (apex ++ js "/e"))].
Proof. now vm_compute. Qed.

(** C2 (amended). When the first run of the pipeline, in a fresh process,
    returns and every entry of its result carries an extraction result,
    a second run in a new process on the files the first one left, against
    the same source, returns the same result, leaves every file as it is
    (the aggregate included), and neither fetches a detail page nor calls
    the extraction. *)
Theorem second_run_reuses_the_cache `{Runtime} kws limit s result s1 :
  done s = false →
  getArticlesRecursivelyWith kws 1 [] limit s = (Val result, s1) →
  Forall (λ rec, truthy (r_victims rec) = true) result →
  ∃ s2, getArticlesRecursivelyWith kws 1 [] limit (restart s1) = (Val result, s2)
        ∧ disk s2 = disk s1
        ∧ Forall (λ e, isDetailWork e = false) (trace s2).
Proof.
  intros Hdone Hrun Htruthy.
  destruct (pagination_replay kws limit 1 [] s result s1 Hrun Htruthy (restart s1))
    as (s2 & Hrun2 & Hdisk & evs & Htr & Hevs); [done|done|].
  exists s2. split; [done|]. split; [done|]. now rewrite Htr.
Qed.

Lemma second_run_reuses_the_cache_witness :
  let first := @getArticlesRecursivelyWith Cases.steady keywords 1 [] 2 Demo.fresh in
  ∃ s2, @getArticlesRecursivelyWith Cases.steady keywords 1 [] 2 (restart first.2)
        = (first.1, s2)
        ∧ disk s2 = disk first.2
        ∧ Forall (λ e, isDetailWork e = false) (trace s2).
Proof.
  intros first.
  destruct first as [[result|] s1] eqn:Hfirst; [|now vm_compute in Hfirst].
  apply (@second_run_reuses_the_cache Cases.steady keywords 2 Demo.fresh result s1);
    [reflexivity|exact Hfirst|].
  assert (Val result = (@getArticlesRecursivelyWith Cases.steady keywords 1 [] 2 Demo.fresh).1)
    as Hres by (fold first; now rewrite Hfirst).
  vm_compute in Hres. injection Hres as ->. now repeat constructor.
Defined.

(** * Further properties *)

(** * More properties of the pipeline *)

(** ** The scan of a listing page *)

Section ScanMore.
Context `{Runtime}.

Lemma landing_raised articles acc :
  (landing articles acc).2 = true →
  ∃ a p, a ∈ articles ∧ summaryOf a = Some p ∧ afterCutoff p = false.
Proof.
  revert acc. induction articles as [|a t IH]; intros acc; simpl; [done|].
  destruct (summaryOf a) as [p|] eqn:Hp; simpl; [|done].
  destruct (afterCutoff p) eqn:Hcut; simpl.
  - intros (a' & p' & Ha & Hs & Hc)%IH. exists a', p'. split; [now right|done].
  - intros _. exists a, p. split; [now left|done].
Qed.

Lemma landing_undated articles acc a :
  a ∈ articles → dateText a = None → (landing articles acc).1 = Throw.
Proof.
  intros Ha Hd. revert acc. induction articles as [|b t IH]; intros acc.
  - now apply elem_of_nil in Ha.
  - simpl. apply elem_of_cons in Ha as [<-|Ha].
    + unfold summaryOf. now rewrite Hd.
    + destruct (summaryOf b) as [p|]; simpl; [|done].
      destruct (afterCutoff p); simpl; now apply IH.
Qed.

End ScanMore.

(** X1. Scanning a listing page reads and writes no file and fetches
    nothing; it never lowers the flag, and when it raises it some entry
    of the page is not dated after the cutoff. *)
Theorem scan_of_a_page_only_raises_the_flag `{Runtime} html s :
  disk (getDciLinksFromLanding html s).2 = disk s
  ∧ trace (getDciLinksFromLanding html s).2 = trace s
  ∧ (done s = true → done (getDciLinksFromLanding html s).2 = true)
  ∧ (done s = false → done (getDciLinksFromLanding html s).2 = true →
     ∃ a p, a ∈ featured html ∧ summaryOf a = Some p ∧ afterCutoff p = false).
Proof.
  unfold getDciLinksFromLanding. rewrite landing_run. simpl.
  split_and!; try done.
  - now intros ->.
  - intros -> Hb. simpl in Hb. now apply landing_raised in Hb.
Qed.

Lemma scan_of_a_page_only_raises_the_flag_witness :
  ∃ a p, a ∈ @featured Cases.descending [1]
         ∧ summaryOf a = Some p
         ∧ @afterCutoff Cases.descending p = false.
Proof.
  apply (proj2 (proj2 (proj2
    (@scan_of_a_page_only_raises_the_flag Cases.descending [1] Demo.fresh))));
    now vm_compute.
Defined.

(** X2. An entry of a listing page without a date field makes the scan of
    the page throw: the pagination throws at that page, having written
    nothing for it (no page result, no page file, no aggregate) and
    fetched at most the listing page itself. *)
Theorem entry_without_date_fails_the_page `{Runtime}
    kws page acc stop s html s1 article :
  done s = false → page <= stop →
  readPage page s = (Val html, s1) → nonEmpty html = true →
  article ∈ featured html → dateText article = None →
  ∃ sF, getArticlesRecursivelyWith kws page acc stop s = (Throw, sF)
        ∧ disk sF = disk s
        ∧ ∃ evs, trace sF = trace s ++ evs
                 ∧ Forall (λ e, e = Fetch (ListingPage page)) evs.
Proof.
  intros Hdone Hle Hread Hne Hin Hd.
  pose proof (landing_undated _ [] _ Hin Hd) as Hthrow.
  assert (processPage kws page html s1
          = (Throw, stopIf (landing (featured html) []).2 s1)) as Hpage.
  { rewrite processPage_eq. destruct (landing (featured html) []) as [[l|] b]; done. }
  exists (stopIf (landing (featured html) []).2 s1). split; [|split].
  - rewrite getArticlesRecursivelyWith_eq, Hdone, Hread, Hne, Hpage. simpl.
    now destruct (page <=? stop) eqn:E; [|lia].
  - simpl. pose proof (readPage_disk page s) as Hdisk. now rewrite Hread in Hdisk.
  - simpl. pose proof (step_trace _ _ _ _ (readPage_step page s)) as Htr.
    now rewrite Hread in Htr.
Qed.

Lemma entry_without_date_fails_the_page_witness :
  let undated := {| anchorHref := Some (Some (js "/g")); h3Text := Some (js "Man killed");
                    dateText := None |} in
  let w := Demo.world 1 (Cases.site [[Cases.jan05; undated]]) Cases.reply in
  ∃ sF, @getArticlesRecursivelyWith w keywords 1 [] 3 Demo.fresh = (Throw, sF)
        ∧ disk sF = disk Demo.fresh
        ∧ ∃ evs, trace sF = trace Demo.fresh ++ evs
                 ∧ Forall (λ e, e = Fetch (ListingPage 1)) evs.
Proof.
  intros undated w.
  apply (@entry_without_date_fails_the_page w keywords 1 [] 3 Demo.fresh [1]
           {| done := false; disk := Demo.emptyDisk; trace := [Fetch (ListingPage 1)] |}
           undated); try now vm_compute.
  vm_compute. right. now left.
Defined.

(** ** The articles of a page *)

Section StoreMore.
Context `{Runtime}.

Lemma reduceM_app {A B} (f : B → A → M B) l1 l2 acc s :
  reduceM f (l1 ++ l2) acc s
  = match reduceM f l1 acc s with
    | (Val acc', s') => reduceM f l2 acc' s'
    | (Throw, s') => (Throw, s')
    end.
Proof.
  revert acc s. induction l1 as [|x l1 IH]; intros acc s; simpl; [done|].
  unfold bind. destruct (f acc x s) as [[acc'|] s']; [apply IH|done].
Qed.

Lemma store_run_entries kws links s res s' :
  reduceM (storeStep kws) links [] s = (Val res, s') →
  (λ r, (r_link r, Some (r_headline r), r_date r)) <$> res
  = (λ p, (p_link p, p_headline p, p_date p)) <$> List.filter (matchesKeyword kws) links.
Proof.
  revert s res. induction links as [|p links IH]; intros s res; simpl.
  - now intros [= <- <-].
  - unfold bind, matchesKeyword at 1.
    destruct (storeStep_cases kws [] p s) as [Hh Hk|Hs|h v Hh Hk Hc|h Hh Hk Hc];
      [done|..].
    + destruct (p_headline p); [rewrite Hs|]; apply IH.
    + rewrite reduceM_store_acc, Hh, Hk.
      destruct (reduceM _ links [] s) as [[l|] s1] eqn:Hrun; [|done].
      simpl. intros [= <- <-]. rewrite fmap_cons. simpl.
      now rewrite (IH _ _ Hrun), Hh.
    + rewrite reduceM_store_acc, Hh, Hk.
      destruct (reduceM _ links [] (missState _ _ _ _)) as [[l|] s1] eqn:Hrun; [|done].
      simpl. intros [= <- <-]. rewrite fmap_cons. simpl.
      now rewrite (IH _ _ Hrun), Hh.
Qed.

Lemma storeStep_coherent kws acc p s :
  coherent (disk s) → coherent (disk (storeStep kws acc p s).2).
Proof.
  intros Hco. destruct (storeStep_cases kws acc p s); simpl; try done.
  intros k r. simpl.
  destruct (decide (k = recordPath (p_date p) h)) as [->|Hne].
  - rewrite !lookup_insert_eq. now intros [= <-].
  - rewrite !lookup_insert_ne by done. apply Hco.
Qed.

Lemma reduceM_store_coherent kws links acc s :
  coherent (disk s) → coherent (disk (reduceM (storeStep kws) links acc s).2).
Proof.
  revert acc s. induction links as [|p links IH]; intros acc s Hco; simpl; [done|].
  unfold bind. pose proof (storeStep_coherent kws acc p s Hco) as Hco1.
  destruct (storeStep kws acc p s) as [[l|] s1]; simpl in *; [|done].
  now apply IH.
Qed.

Lemma processPage_coherent kws page html s :
  coherent (disk s) → coherent (disk (processPage kws page html s).2).
Proof.
  intros Hco. rewrite processPage_eq.
  destruct (landing (featured html) []) as [[links|] b]; simpl; [|done].
  pose proof (reduceM_store_coherent kws links [] (stopIf b s) Hco) as Hco1.
  now destruct (reduceM _ links [] _) as [[arts|] s2].
Qed.

End StoreMore.

(** ** C5: the keyword test *)




(** X3. A summary without headline that reaches a non-empty keyword test
    makes [getAndStoreArticlesFromLinks] throw. The summaries before it
    have been fetched, extracted and written by then and stay so; the
    summaries after it are not looked at. *)
Theorem summary_without_headline_throws `{Runtime} kws before p after s res s1 :
  kws ≠ [] → p_headline p = None →
  getAndStoreArticlesFromLinksWith kws before s = (Val res, s1) →
  getAndStoreArticlesFromLinksWith kws (before ++ p :: after) s = (Throw, s1).
Proof.
  unfold getAndStoreArticlesFromLinksWith. intros Hk Hh Hrun.
  rewrite reduceM_app, Hrun. simpl. unfold bind, storeStep. rewrite Hh.
  now destruct kws.
Qed.

Lemma summary_without_headline_throws_witness :
  let p := {| p_link := apex ++ js "/x"; p_headline := None;
              p_date := js "January 05, 2024" |} in
  @getAndStoreArticlesFromLinksWith Cases.steady keywords
    ([] ++ p :: [Cases.summary Cases.jan05]) Demo.fresh
  = (Throw, Demo.fresh).
Proof.
  intros p.
  apply (@summary_without_headline_throws Cases.steady keywords [] p
           [Cases.summary Cases.jan05] Demo.fresh [] Demo.fresh); now vm_compute.
Defined.

(** X4. When [getAndStoreArticlesFromLinks] returns, its result has one
    entry for each summary whose headline holds a keyword, in the order of
    the page, with the link, headline and date of that summary; the
    summaries without a keyword leave no entry. *)
Theorem entries_are_the_matching_summaries `{Runtime} kws links s res s' :
  getAndStoreArticlesFromLinksWith kws links s = (Val res, s') →
  (λ r, (r_link r, Some (r_headline r), r_date r)) <$> res
  = (λ p, (p_link p, p_headline p, p_date p)) <$> List.filter (matchesKeyword kws) links.
Proof. apply store_run_entries. Qed.

Lemma entries_are_the_matching_summaries_witness :
  let links := [Cases.summary Cases.jan05;
                {| p_link := apex ++ js "/n"; p_headline := Some (js "Council meeting schedule");
                   p_date := js "January 04, 2024" |};
                Cases.summary Cases.jan03] in
  r_link <$> match (@getAndStoreArticlesFromLinksWith Cases.steady keywords links Demo.fresh).1 with
             | Val res => res
             | Throw => []
             end
  = [apex ++ js "/a"; apex ++ js "/b"].
Proof.
  intros links.
  destruct (@getAndStoreArticlesFromLinksWith Cases.steady keywords links Demo.fresh)
    as [[res|] s'] eqn:Hrun; [|now vm_compute in Hrun].
  pose proof (@entries_are_the_matching_summaries Cases.steady _ _ _ _ _ Hrun) as He.
  apply (f_equal (fmap (λ t : list Z * option (list Z) * list Z, t.1.1))) in He.
  rewrite <- !list_fmap_compose in He. simpl. etransitivity; [exact He|].
  now vm_compute.
Defined.

(** X5. The pipeline keeps the files of the cache consistent: when every
    record on file sits at the path its date and headline give, names that
    path in [htmlFile] and has next to it the page of its link, the same
    holds after [getArticlesRecursively], however it ends. *)
Theorem cache_files_stay_coherent `{Runtime} kws page acc stop s :
  coherent (disk s) →
  coherent (disk (getArticlesRecursivelyWith kws page acc stop s).2).
Proof.
  revert page acc s. apply (pagination_ind kws stop (λ page acc s out,
    coherent (disk s) → coherent (disk out.2))).
  - intros page acc s _ Hco. unfold finish. now destruct (dirExists (disk s)).
  - intros page acc s html s1 _ Hread _ Hco.
    pose proof (readPage_disk page s) as Hd. rewrite Hread in Hd. simpl in *.
    now rewrite Hd.
  - intros page acc s html s1 s2 _ Hread _ Hpage Hco.
    pose proof (readPage_disk page s) as Hd. rewrite Hread in Hd. simpl in Hd.
    pose proof (processPage_coherent kws page html s1) as Hp.
    rewrite Hpage, Hd in Hp. auto.
  - intros page acc s html s1 arts s2 _ Hread _ Hpage IH Hco.
    pose proof (readPage_disk page s) as Hd. rewrite Hread in Hd. simpl in Hd.
    pose proof (processPage_coherent kws page html s1) as Hp.
    rewrite Hpage, Hd in Hp. auto.
Qed.

Lemma cache_files_stay_coherent_witness :
  @coherent Cases.steady
    (disk (@getArticlesRecursivelyWith Cases.steady keywords 1 [] 2 Demo.fresh).2).
Proof.
  apply (@cache_files_stay_coherent Cases.steady keywords 1 [] 2 Demo.fresh).
  intros k r Hk. now vm_compute in Hk.
Defined.

(** X6. Once a summary has been processed and its entry carries an
    extraction result (an empty list of victims counts as one), processing
    the same summary again is a read of the cache: it returns the same
    entry and changes nothing, neither files nor trace. *)
Theorem processed_summary_is_a_cache_hit `{Runtime} kws acc p rec s s1 :
  storeStep kws acc p s = (Val (acc ++ [rec]), s1) →
  truthy (r_victims rec) = true →
  ∀ acc', storeStep kws acc' p s1 = (Val (acc' ++ [rec]), s1).
Proof.
  intros Hrun Ht acc'.
  destruct (storeStep_cases kws acc p s) as [Hh' Hk|Hs|h v Hh' Hk Hc|h Hh' Hk Hc].
  - done.
  - injection Hrun as Hacc _. apply (f_equal length) in Hacc.
    rewrite length_app in Hacc. simpl in Hacc. lia.
  - injection Hrun as Hacc <-. apply app_inv_head in Hacc. injection Hacc as <-.
    now apply store_hit.
  - injection Hrun as Hacc <-. apply app_inv_head in Hacc. injection Hacc as <-.
    rewrite (store_hit kws acc' p h (r_victims (missRecord h (p_date p) (p_link p) s)));
      [done..|].
    unfold cachedVictims, missState. simpl. rewrite lookup_insert_eq. simpl in *.
    now rewrite Ht.
Qed.

Lemma processed_summary_is_a_cache_hit_witness :
  let p := Cases.summary Cases.jan05 in
  let out := @storeStep Cases.steady keywords [] p Demo.fresh in
  ∃ rec, @storeStep Cases.steady keywords [] p out.2 = (Val ([] ++ [rec]), out.2).
Proof.
  intros p out.
  destruct out as [[res|] s1] eqn:Hout; [|now vm_compute in Hout].
  assert (∃ rec, res = [] ++ [rec] ∧ truthy (r_victims rec) = true) as (rec & -> & Ht).
  { assert (Val res = (@storeStep Cases.steady keywords [] p Demo.fresh).1) as Hres
      by (fold out; now rewrite Hout).
    vm_compute in Hres. injection Hres as ->. eexists. split; reflexivity. }
  exists rec.
  apply (@processed_summary_is_a_cache_hit Cases.steady keywords [] p
           rec Demo.fresh s1); [exact Hout|exact Ht].
Defined.

(** ** The run as a whole *)

Section RunMore.
Context `{Runtime}.

Lemma storeStep_allJson kws acc p s :
  allJson (disk (storeStep kws acc p s).2) = allJson (disk s).
Proof. now destruct (storeStep_cases kws acc p s). Qed.

Lemma reduceM_store_allJson kws links acc s :
  allJson (disk (reduceM (storeStep kws) links acc s).2) = allJson (disk s).
Proof.
  revert acc s. induction links as [|p links IH]; intros acc s; simpl; [done|].
  unfold bind. pose proof (storeStep_allJson kws acc p s) as Ha.
  destruct (storeStep kws acc p s) as [[l|] s1]; simpl in *; [|done].
  now rewrite IH.
Qed.

Lemma processPage_allJson kws page html s :
  allJson (disk (processPage kws page html s).2) = allJson (disk s).
Proof.
  rewrite processPage_eq.
  destruct (landing (featured html) []) as [[links|] b]; simpl; [|done].
  pose proof (reduceM_store_allJson kws links [] (stopIf b s)) as Ha.
  now destruct (reduceM _ links [] _) as [[arts|] s2].
Qed.

Lemma processPage_done_false kws page html s r s2 :
  processPage kws page html s = (r, s2) → done s2 = false → done s = false.
Proof.
  intros Hpage Hd. pose proof (step_done _ _ _ _ (processPage_step kws page html s)) as Hm.
  rewrite Hpage in Hm. simpl in Hm. destruct (done s); [|done].
  rewrite Hm in Hd; done.
Qed.

Lemma pageResults_stable d d' page n :
  (∀ p, page <= p → pageJson d' !! p = pageJson d !! p) →
  pageResults d' page n = pageResults d page n.
Proof.
  revert page. induction n as [|n IH]; intros page Hp; simpl; [done|].
  rewrite Hp by lia. f_equal. apply IH. intros p Hle. apply Hp. lia.
Qed.

End RunMore.

(** X7. When [getArticlesRecursively] returns, what it returns is the
    accumulator it was given followed by the page results it wrote, page
    after page from the start page on. It ended either by writing that
    very list as the aggregate, or on a page within the limit whose content
    (the stored file, or else what the source returns) is empty, and then
    it left the aggregate file as it was. *)
Theorem result_is_the_page_results_in_order `{Runtime} kws page acc stop s result sF :
  getArticlesRecursivelyWith kws page acc stop s = (Val result, sF) →
  ∃ n : nat,
    result = acc ++ pageResults (disk sF) page n
    ∧ (∀ i : nat, (i < n)%nat →
         is_Some (pageJson (disk sF) !! (page + Z.of_nat i))
         ∧ is_Some (pageFiles (disk sF) !! (page + Z.of_nat i)))
    ∧ (allJson (disk sF) = Some result
       ∨ (allJson (disk sF) = allJson (disk s)
          ∧ page + Z.of_nat n <= stop
          ∧ default (web (ListingPage (page + Z.of_nat n)))
              (pageFiles (disk sF) !! (page + Z.of_nat n)) = [])).
Proof.
  revert page acc s. apply (pagination_ind kws stop (λ page acc s out,
    out = (Val result, sF) →
    ∃ n : nat,
      result = acc ++ pageResults (disk sF) page n
      ∧ (∀ i : nat, (i < n)%nat →
           is_Some (pageJson (disk sF) !! (page + Z.of_nat i))
           ∧ is_Some (pageFiles (disk sF) !! (page + Z.of_nat i)))
      ∧ (allJson (disk sF) = Some result
         ∨ (allJson (disk sF) = allJson (disk s)
            ∧ page + Z.of_nat n <= stop
            ∧ default (web (ListingPage (page + Z.of_nat n)))
                (pageFiles (disk sF) !! (page + Z.of_nat n)) = [])))).
  - intros page acc s _ (_ & <- & ->)%finish_val. exists 0%nat. simpl.
    rewrite app_nil_r. split_and!; [done|lia|now left].
  - intros page acc s html s1 Hgo Hread Hne [= <- <-]. exists 0%nat. simpl.
    rewrite app_nil_r. split_and!; [done|lia|right].
    pose proof (readPage_disk page s) as Hd. rewrite Hread in Hd. simpl in Hd.
    apply andb_prop in Hgo as [_ Hle%Z.leb_le].
    split_and!; [now rewrite Hd|lia|].
    destruct html; [|done].
    rewrite Z.add_0_r, Hd. rewrite readPage_eq in Hread.
    now destruct (pageFiles (disk s) !! page); injection Hread as -> _.
  - done.
  - intros page acc s html s1 arts s2 Hgo Hread Hne Hpage IH Hout.
    destruct (IH Hout) as (n & Hres & Hfiles & Hend).
    pose proof (pagination_step kws stop (page + 1) (acc ++ arts) s2) as Strest.
    rewrite Hout in Strest. simpl in Strest.
    pose proof (readPage_disk page s) as Hd. rewrite Hread in Hd. simpl in Hd.
    pose proof (processPage_allJson kws page html s1) as Hall.
    rewrite Hpage in Hall. simpl in Hall. rewrite Hd in Hall.
    rewrite processPage_eq in Hpage.
    destruct (landing (featured html) []) as [[links|] b]; [|done].
    destruct (reduceM (storeStep kws) links [] (stopIf b s1)) as [[arts'|] s2'];
      [|done].
    injection Hpage as -> <-.
    assert (pageJson (disk sF) !! page = Some arts) as Hpj.
    { rewrite (step_pageJson _ _ _ _ Strest) by lia. simpl. apply lookup_insert_eq. }
    assert (pageFiles (disk sF) !! page = Some html) as Hpf.
    { rewrite (step_pageFiles _ _ _ _ Strest) by lia. simpl. apply lookup_insert_eq. }
    exists (S n). split_and!.
    + simpl. rewrite Hpj. simpl. now rewrite Hres, <- app_assoc.
    + intros [|i] Hi.
      * rewrite Z.add_0_r, Hpj, Hpf. eauto.
      * replace (page + Z.of_nat (S i)) with (page + 1 + Z.of_nat i) by lia.
        apply Hfiles. lia.
    + destruct Hend as [Hend|(Ha & Hle & Hempty)]; [now left|right].
      replace (page + Z.of_nat (S n)) with (page + 1 + Z.of_nat n) by lia.
      split_and!; [now rewrite Ha, <- Hall|done..].
Qed.

Lemma result_is_the_page_results_in_order_witness :
  let out := @getArticlesRecursivelyWith Cases.steady keywords 1 [] 2 Demo.fresh in
  ∃ n : nat, out.1 = Val ([] ++ pageResults (disk out.2) 1 n).
Proof.
  intros out. destruct out as [[result|] sF] eqn:Hout; [|now vm_compute in Hout].
  destruct (@result_is_the_page_results_in_order Cases.steady _ _ _ _ _ _ _ Hout)
    as (n & -> & _).
  now exists n.
Defined.

(** X8. The pagination fetches a listing page only when it has no stored
    file for it, and only pages from the start page up to the limit; the
    pages it finds on file it reads without any fetch. *)
Theorem listing_is_fetched_only_when_not_on_file `{Runtime} kws page acc stop s :
  ∃ evs, trace (getArticlesRecursivelyWith kws page acc stop s).2 = trace s ++ evs
    ∧ ∀ p, Fetch (ListingPage p) ∈ evs →
           page <= p <= stop ∧ pageFiles (disk s) !! p = None.
Proof.
  revert page acc s. apply (pagination_ind kws stop (λ page acc s out,
    ∃ evs, trace out.2 = trace s ++ evs
      ∧ ∀ p, Fetch (ListingPage p) ∈ evs →
             page <= p <= stop ∧ pageFiles (disk s) !! p = None)).
  - intros page acc s _. unfold finish. destruct (dirExists (disk s)).
    + eexists. split; [reflexivity|].
      intros p Hp. apply list_elem_of_singleton in Hp. done.
    + exists []. split; [simpl; now rewrite app_nil_r|].
      intros p Hp. now apply elem_of_nil in Hp.
  - intros page acc s html s1 Hgo Hread _. simpl.
    apply andb_prop in Hgo as [_ Hle%Z.leb_le].
    rewrite readPage_eq in Hread.
    destruct (pageFiles (disk s) !! page) eqn:Hf; injection Hread as _ <-.
    + exists []. rewrite app_nil_r. split; [done|]. intros p Hp.
      now apply elem_of_nil in Hp.
    + eexists. split; [reflexivity|]. intros p Hp.
      apply list_elem_of_singleton in Hp. injection Hp as ->. split; [lia|done].
  - intros page acc s html s1 s2 Hgo Hread _ Hpage. simpl.
    apply andb_prop in Hgo as [_ Hle%Z.leb_le].
    destruct (step_trace _ _ _ _ (processPage_step kws page html s1)) as (ev2 & Htr2 & Hev2).
    rewrite Hpage in Htr2. simpl in Htr2.
    rewrite readPage_eq in Hread.
    destruct (pageFiles (disk s) !! page) eqn:Hf; injection Hread as _ <-.
    + exists ev2. split; [done|]. intros p Hp.
      rewrite Forall_forall in Hev2. now apply Hev2 in Hp.
    + exists (Fetch (ListingPage page) :: ev2). simpl in *.
      split; [now rewrite Htr2, <- app_assoc|]. intros p Hp.
      apply elem_of_cons in Hp as [[= ->]|Hp]; [split; [lia|done]|].
      rewrite Forall_forall in Hev2. now apply Hev2 in Hp.
  - intros page acc s html s1 arts s2 Hgo Hread _ Hpage (ev3 & Htr3 & Hev3).
    apply andb_prop in Hgo as [_ Hle%Z.leb_le].
    pose proof (processPage_step kws page html s1) as St2. rewrite Hpage in St2.
    simpl in St2. destruct (step_trace _ _ _ _ St2) as (ev2 & Htr2 & Hev2).
    assert (∀ p, page + 1 <= p → pageFiles (disk s2) !! p = pageFiles (disk s) !! p) as Hsame.
    { intros p Hp. rewrite (step_pageFiles _ _ _ _ St2) by lia.
      pose proof (readPage_disk page s) as Hd. rewrite Hread in Hd. simpl in Hd.
      now rewrite Hd. }
    assert (∀ p, Fetch (ListingPage p) ∈ ev2 ++ ev3 →
                 page <= p <= stop ∧ pageFiles (disk s) !! p = None) as Hrest.
    { intros p [Hp|Hp]%elem_of_app.
      - rewrite Forall_forall in Hev2. now apply Hev2 in Hp.
      - destruct (Hev3 p Hp) as [Hr Hn]. split; [lia|]. rewrite <- Hsame by lia. done. }
    rewrite readPage_eq in Hread.
    destruct (pageFiles (disk s) !! page) eqn:Hf; injection Hread as _ <-.
    + exists (ev2 ++ ev3). split; [now rewrite Htr3, Htr2, app_assoc|done].
    + exists (Fetch (ListingPage page) :: ev2 ++ ev3). simpl in *.
      split; [now rewrite Htr3, Htr2, <- !app_assoc|]. intros p Hp.
      apply elem_of_cons in Hp as [[= ->]|Hp]; [split; [lia|done]|auto].
Qed.

Lemma listing_is_fetched_only_when_not_on_file_witness :
  let first := @getArticlesRecursivelyWith Cases.steady keywords 1 [] 2 Demo.fresh in
  ∃ evs, trace (@getArticlesRecursivelyWith Cases.steady keywords 1 [] 2
                  (restart first.2)).2 = trace (restart first.2) ++ evs
    ∧ Fetch (ListingPage 1) ∉ evs.
Proof.
  intros first.
  destruct (@listing_is_fetched_only_when_not_on_file Cases.steady keywords 1 [] 2
              (restart first.2)) as (evs & Htr & Hev).
  exists evs. split; [exact Htr|]. intros Hin. apply Hev in Hin as [_ Hnone].
  now vm_compute in Hnone.
Defined.

(** X9. A listing page that has content but no entries does not end the
    crawl: an empty page result and the page are written, the flag stays
    as it was, and the pagination goes on with the next page. *)
Theorem page_without_entries_does_not_stop `{Runtime} kws page acc stop s html s1 :
  done s = false → page <= stop →
  readPage page s = (Val html, s1) → nonEmpty html = true →
  featured html = [] →
  processPage kws page html s1 = (Val [], pageWritten page html [] s1)
  ∧ done (pageWritten page html [] s1) = false
  ∧ getArticlesRecursivelyWith kws page acc stop s
    = getArticlesRecursivelyWith kws (page + 1) acc stop (pageWritten page html [] s1).
Proof.
  intros Hdone Hle Hread Hne Hnone.
  assert (processPage kws page html s1 = (Val [], pageWritten page html [] s1)) as Hpage.
  { rewrite processPage_eq, Hnone. simpl. now rewrite stopIf_false. }
  pose proof (readPage_done page s) as Hd. rewrite Hread in Hd. simpl in Hd.
  split_and!; [done|simpl; congruence|].
  rewrite getArticlesRecursivelyWith_eq, Hdone, Hread, Hne, Hpage, app_nil_r.
  simpl. now destruct (page <=? stop) eqn:E; [|lia].
Qed.

Lemma page_without_entries_does_not_stop_witness :
  let w := Demo.world 2 (Cases.site [[]; [Cases.dec12]]) Cases.reply in
  let s1 := {| done := false; disk := Demo.emptyDisk; trace := [Fetch (ListingPage 1)] |} in
  @getArticlesRecursivelyWith w keywords 1 [] 2 Demo.fresh
  = @getArticlesRecursivelyWith w keywords 2 [] 2 (pageWritten 1 [1] [] s1).
Proof.
  intros w s1.
  apply (@page_without_entries_does_not_stop w keywords 1 [] 2 Demo.fresh [1] s1);
    now vm_compute.
Defined.

(** X21. Where the flag is up or the page is past the limit and the
    directory of the aggregate is not there, the pagination throws at the
    write of the aggregate and leaves everything as it is: no file is
    written and nothing is fetched. *)
Theorem aggregate_is_not_written_without_the_directory `{Runtime}
    kws page acc stop s :
  done s = true ∨ stop < page → dirExists (disk s) = false →
  getArticlesRecursivelyWith kws page acc stop s = (Throw, s).
Proof.
  intros Hstop Hdir. rewrite getArticlesRecursivelyWith_eq.
  assert (negb (done s) && (page <=? stop) = false) as ->.
  { destruct Hstop as [->|Hlt]; [done|].
    destruct (page <=? stop) eqn:E; [lia|]. apply andb_false_r. }
  unfold finish. now rewrite Hdir.
Qed.

Lemma aggregate_is_not_written_without_the_directory_witness :
  @getArticlesRecursivelyWith Cases.steady keywords 1 [] 0 Demo.fresh
  = (Throw, Demo.fresh).
Proof.
  apply (@aggregate_is_not_written_without_the_directory Cases.steady
           keywords 1 [] 0 Demo.fresh); [right; lia|reflexivity].
Defined.

(** * More properties of the string functions *)

(** ** Trimming *)

Lemma trimStart_split l :
  ∃ ws, l = ws ++ trimStart l ∧ Forall (λ c, isSpace c = true) ws.
Proof.
  induction l as [|c l (ws & Hl & Hws)]; simpl.
  - now exists [].
  - destruct (isSpace c) eqn:Hc.
    + exists (c :: ws). simpl. split; [now f_equal|now constructor].
    + now exists [].
Qed.

Lemma trimEnd_split l :
  ∃ ws, l = trimEnd l ++ ws ∧ Forall (λ c, isSpace c = true) ws.
Proof.
  unfold trimEnd. destruct (trimStart_split (reverse l)) as (ws & Hl & Hws).
  exists (reverse ws). split.
  - rewrite <- reverse_app, <- Hl. now rewrite reverse_involutive.
  - now apply Forall_reverse.
Qed.

Lemma trimStart_head l c : head (trimStart l) = Some c → isSpace c = false.
Proof.
  induction l as [|a l IH]; simpl; [done|].
  destruct (isSpace a) eqn:Ha; [done|]. now intros [= <-].
Qed.

Lemma last_reverse_head {A} (l : list A) : last (reverse l) = head l.
Proof. destruct l as [|a l]; [done|]. now rewrite reverse_cons, last_snoc. Qed.

Lemma trimEnd_last l c : last (trimEnd l) = Some c → isSpace c = false.
Proof. unfold trimEnd. rewrite last_reverse_head. apply trimStart_head. Qed.

Lemma trim_trimmed l : trimmed (trim l).
Proof.
  unfold trim. split; [|apply trimEnd_last].
  intros c Hc. destruct (trimEnd_split (trimStart l)) as (ws & Hl & _).
  apply (trimStart_head l c). rewrite Hl.
  now destruct (trimEnd (trimStart l)).
Qed.

Lemma trimStart_fixed l :
  (∀ c, head l = Some c → isSpace c = false) → trimStart l = l.
Proof. destruct l as [|a l]; simpl; [done|]. intros Hh. now rewrite (Hh a). Qed.

Lemma trim_fixed l : trimmed l → trim l = l.
Proof.
  intros [Hh Hl]. unfold trim, trimEnd. rewrite (trimStart_fixed l Hh).
  rewrite trimStart_fixed; [apply reverse_involutive|].
  intros c Hc. apply Hl. now rewrite <- (reverse_involutive l), last_reverse_head.
Qed.

Lemma trim_split l :
  ∃ a b, l = a ++ trim l ++ b
         ∧ Forall (λ c, isSpace c = true) a ∧ Forall (λ c, isSpace c = true) b.
Proof.
  destruct (trimStart_split l) as (a & Hl & Ha).
  destruct (trimEnd_split (trimStart l)) as (b & Hl' & Hb).
  exists a, b. unfold trim. now rewrite <- Hl', <- Hl.
Qed.

(** ** Runs of white space *)

Lemma singleSpaced_suffix x y : singleSpaced (x ++ y) = true → singleSpaced y = true.
Proof.
  induction x as [|a x IH]; simpl; [done|].
  intros [_ Hs]%andb_prop. auto.
Qed.

Lemma singleSpaced_prefix x y : singleSpaced (x ++ y) = true → singleSpaced x = true.
Proof.
  induction x as [|a x IH]; simpl; [done|].
  intros [Ha Hs]%andb_prop. rewrite (IH Hs), andb_true_r.
  destruct x as [|b x]; [done|exact Ha].
Qed.

Lemma ink_cons c l : ink (c :: l) = if isSpace c then ink l else c :: ink l.
Proof. unfold ink. cbn [List.filter]. now destruct (isSpace c). Qed.

Lemma ink_spaces ws : Forall (λ c, isSpace c = true) ws → ink ws = [].
Proof. induction 1 as [|c ws Hc _ IH]; [done|]. now rewrite ink_cons, Hc. Qed.

Lemma ink_app x y : ink (x ++ y) = ink x ++ ink y.
Proof. apply List.filter_app. Qed.

Lemma flushRun_cases rep run :
  flushRun rep run = [] ∨ (∃ w, w ∈ run ∧ flushRun rep run = [w]) ∨ flushRun rep run = rep.
Proof.
  destruct run as [|w [|w' run]]; simpl; [now left| |now right; right].
  right. left. exists w. split; [now left|done].
Qed.

Lemma singleSpaced_ink c y :
  isSpace c = false → singleSpaced (c :: y) = singleSpaced y.
Proof. intros Hc. simpl. rewrite Hc. now destruct y. Qed.

Lemma singleSpaced_before_ink w c y :
  isSpace c = false → singleSpaced (w :: c :: y) = singleSpaced y.
Proof.
  intros Hc. rewrite <- (singleSpaced_ink c y Hc).
  change (singleSpaced (w :: c :: y))
    with (negb (isSpace w && isSpace c) && singleSpaced (c :: y)).
  now rewrite Hc, andb_false_r.
Qed.

Lemma replaceRuns_singleSpaced rep run s :
  (length rep ≤ 1)%nat → Forall (λ c, isSpace c = true) rep →
  Forall (λ c, isSpace c = true) run →
  singleSpaced (replaceRuns false rep run s) = true.
Proof.
  intros Hlen Hrep. revert run. induction s as [|c s IH]; intros run Hrun; simpl.
  - destruct (flushRun_cases rep run) as [->|[(w & _ & ->)| ->]]; [done..|].
    now destruct rep as [|r [|r' rep]]; [| |simpl in Hlen; lia].
  - destruct (isSpace c) eqn:Hc.
    + apply IH. apply Forall_app. split; [done|now constructor].
    + specialize (IH [] (Forall_nil_2 _)).
      destruct (flushRun_cases rep run) as [->|[(w & _ & ->)| ->]].
      * cbn [app]. now rewrite singleSpaced_ink.
      * cbn [app]. now rewrite singleSpaced_before_ink.
      * destruct rep as [|r [|r' rep]]; [| |simpl in Hlen; lia]; cbn [app].
        -- now rewrite singleSpaced_ink.
        -- now rewrite singleSpaced_before_ink.
Qed.

Lemma flushRun_ink rep run :
  Forall (λ c, isSpace c = true) rep → Forall (λ c, isSpace c = true) run →
  ink (flushRun rep run) = [].
Proof.
  intros Hrep Hrun.
  destruct (flushRun_cases rep run) as [->|[(w & Hw & ->)| ->]]; [done| |].
  - rewrite Forall_forall in Hrun. now rewrite ink_cons, (Hrun w Hw).
  - now apply ink_spaces.
Qed.

Lemma replaceRuns_ink rep run s :
  Forall (λ c, isSpace c = true) rep → Forall (λ c, isSpace c = true) run →
  ink (replaceRuns false rep run s) = ink s.
Proof.
  intros Hrep. revert run.
  induction s as [|c s IH]; intros run Hrun; cbn [replaceRuns andb].
  - now apply flushRun_ink.
  - rewrite ink_cons. destruct (isSpace c) eqn:Hc.
    + apply IH. apply Forall_app. split; [done|now constructor].
    + rewrite ink_app, flushRun_ink by done. cbn [app].
      now rewrite ink_cons, Hc, IH.
Qed.

Lemma replaceRuns_fixed rep run s :
  (length run ≤ 1)%nat → Forall (λ c, isSpace c = true) run →
  singleSpaced (run ++ s) = true →
  replaceRuns false rep run s = run ++ s.
Proof.
  revert run. induction s as [|c s IH]; intros run Hlen Hrun Hs; simpl.
  - rewrite app_nil_r. now destruct run as [|w [|w' run]]; [| |simpl in Hlen; lia].
  - destruct (isSpace c) eqn:Hc.
    + destruct run as [|w [|w' run]]; [|exfalso|simpl in Hlen; lia].
      * apply (IH [c]); [done|now repeat constructor|done].
      * apply Forall_cons in Hrun as [Hw _]. simpl in Hs. now rewrite Hw, Hc in Hs.
    + rewrite (IH []); [|simpl; lia|done|].
      * now destruct run as [|w [|w' run]]; [| |simpl in Hlen; lia].
      * apply (singleSpaced_suffix (run ++ [c])). now rewrite <- app_assoc.
Qed.

Lemma clean_singleSpaced str : singleSpaced (clean str) = true.
Proof.
  unfold clean.
  destruct (trim_split (replaceRuns false [SPACE] [] str)) as (a & b & Hl & Ha & Hb).
  apply (singleSpaced_prefix _ b), (singleSpaced_suffix a).
  rewrite <- Hl. apply replaceRuns_singleSpaced; [simpl; lia|now repeat constructor|done].
Qed.

(** X10. [clean] leaves a text with no white space at either end and no
    two white space characters next to each other, and it keeps every
    character that is not white space, in order. *)
Theorem clean_leaves_single_spaces str :
  trimmed (clean str)
  ∧ singleSpaced (clean str) = true
  ∧ ink (clean str) = ink str.
Proof.
  split; [apply trim_trimmed|]. split; [apply clean_singleSpaced|].
  unfold clean.
  destruct (trim_split (replaceRuns false [SPACE] [] str)) as (a & b & Hl & Ha & Hb).
  rewrite <- (replaceRuns_ink [SPACE] [] str) by (now repeat constructor).
  rewrite Hl at 2. now rewrite !ink_app, (ink_spaces a), (ink_spaces b), app_nil_r.
Qed.

(** X11. [clean] changes nothing in a text it has already cleaned. *)
Theorem clean_twice_is_clean_once str : clean (clean str) = clean str.
Proof.
  unfold clean at 1.
  rewrite (replaceRuns_fixed [SPACE] [] (clean str)); try done.
  - apply trim_fixed, trim_trimmed.
  - simpl. lia.
  - apply clean_singleSpaced.
Qed.

(** ** The date of an entry *)

(** Membership in lists built with [::] and [++]. *)
Ltac members :=
  intros;
  repeat match goal with
         | H : _ ∨ _ |- _ => destruct H
         | H : _ ∈ [] |- _ => apply elem_of_nil in H; destruct H
         | H : _ ∈ _ :: _ |- _ => apply elem_of_cons in H as [H|H]
         | H : _ ∈ _ ++ _ |- _ => apply elem_of_app in H as [H|H]
         end;
  subst; rewrite ?elem_of_app, ?elem_of_cons; try tauto; try congruence.

Lemma flushRun_elem rep run c : c ∈ flushRun rep run → c ∈ rep ∨ c ∈ run.
Proof.
  destruct (flushRun_cases rep run) as [->|[(w & Hw & ->)| ->]]; members.
Qed.

(** Taking runs of white space out brings in no character. *)
Lemma replaceRuns_elem dc run s c :
  c ∈ replaceRuns dc [] run s → c ∈ run ∨ c ∈ s.
Proof.
  revert run. induction s as [|a s IH]; intros run; cbn [replaceRuns].
  - intros Hc%flushRun_elem. members.
  - destruct (isSpace a).
    + intros Hc%IH. members.
    + rewrite !elem_of_app. intros [Hc%flushRun_elem|[Hc|Hc%IH]]; [members| |members].
      destruct (dc && (a =? COMMA)); members.
Qed.

Lemma replaceRuns_no_comma run s c :
  COMMA ∉ run → c ∈ replaceRuns true [] run s → c ≠ COMMA.
Proof.
  revert run. induction s as [|a s IH]; intros run Hrun; cbn [replaceRuns].
  - intros [Hc|Hc]%flushRun_elem; [now apply elem_of_nil in Hc|now intros ->].
  - destruct (isSpace a) eqn:Ha.
    + apply IH. rewrite elem_of_app. intros [?|Hc]; [done|].
      apply list_elem_of_singleton in Hc. subst a. now vm_compute in Ha.
    + rewrite !elem_of_app. intros [[Hc|Hc]%flushRun_elem|[Hc|Hc]].
      * now apply elem_of_nil in Hc.
      * now intros ->.
      * cbn [andb] in Hc. destruct (Z.eqb_spec a COMMA); [now apply elem_of_nil in Hc|].
        apply list_elem_of_singleton in Hc. now subst c.
      * apply (IH []); [|done]. now intros ?%elem_of_nil.
Qed.

(** X12. A date field without a hyphen gives the empty string, in the
    pipeline script and in the earlier scripts alike. *)
Theorem field_without_hyphen_gives_the_empty_date dateString :
  HYPHEN ∉ dateString → getDate dateString = [] ∧ Sites.getDate dateString = [].
Proof.
  intros Hs.
  assert (∀ dc, execFirstLine (replaceRuns dc [] [] dateString) = None) as Hnone.
  { intros dc. apply execFirstLine_no_hyphen.
    intros Hc%replaceRuns_elem. members. }
  unfold getDate, Sites.getDate. now rewrite !Hnone.
Qed.

Lemma field_without_hyphen_gives_the_empty_date_witness :
  getDate (js "January 20, 2024") = [] ∧ Sites.getDate (js "January 20, 2024") = [].
Proof.
  apply field_without_hyphen_gives_the_empty_date. vm_compute. intros Hin.
  repeat (apply elem_of_cons in Hin as [Hin|Hin]; [done|]).
  now apply elem_of_nil in Hin.
Defined.

(** X13. Whatever the date field, the string [getDate] returns is on one
    line, has no white space at either end and no two white space
    characters next to each other; the string the earlier scripts return
    is on one line, trimmed, and has no comma. *)
Theorem date_string_is_one_trimmed_line dateString :
  (Forall (λ c, isLineTerminator c = false) (getDate dateString)
   ∧ trimmed (getDate dateString)
   ∧ singleSpaced (getDate dateString) = true)
  ∧ (Forall (λ c, isLineTerminator c = false ∧ c ≠ COMMA) (Sites.getDate dateString)
     ∧ trimmed (Sites.getDate dateString)).
Proof.
  assert (trimmed []) as Hnil by (split; done).
  split.
  - unfold getDate.
    destruct (execFirstLine (replaceRuns false [] [] dateString)) as [m|] eqn:Hm;
      [|done].
    destruct (execFirstLine_split _ _ Hm) as (pre & post & Hs & Hf).
    destruct (trim_split m) as (a & b & Hmab & _ & _).
    split_and!; [|apply trim_trimmed|].
    + rewrite Hmab in Hf. now apply Forall_app in Hf as [_ [Hf _]%Forall_app].
    + pose proof (replaceRuns_singleSpaced [] [] dateString) as Hsingle.
      rewrite Hs, Hmab in Hsingle.
      apply (singleSpaced_prefix _ b), (singleSpaced_suffix a),
            (singleSpaced_prefix _ (HYPHEN :: post)), (singleSpaced_suffix pre).
      rewrite <- !app_assoc in *. apply Hsingle; [simpl; lia|done..].
  - unfold Sites.getDate.
    destruct (execFirstLine (replaceRuns true [] [] dateString)) as [m|] eqn:Hm;
      [|done].
    destruct (execFirstLine_split _ _ Hm) as (pre & post & Hs & Hf).
    destruct (trim_split m) as (a & b & Hmab & _ & _).
    split; [|apply trim_trimmed].
    apply Forall_forall. intros c Hc. split.
    + rewrite Forall_forall in Hf. apply Hf. rewrite Hmab, !elem_of_app. auto.
    + apply (replaceRuns_no_comma [] dateString); [now intros ?%elem_of_nil|].
      rewrite Hs, Hmab, !elem_of_app. auto.
Qed.

(** ** The two versions of [getDate] *)

Lemma removeCommas_cons c l :
  removeCommas (c :: l) = if c =? COMMA then removeCommas l else c :: removeCommas l.
Proof. unfold removeCommas. cbn [List.filter]. now destruct (c =? COMMA). Qed.

Lemma removeCommas_app x y : removeCommas (x ++ y) = removeCommas x ++ removeCommas y.
Proof. apply List.filter_app. Qed.

Lemma space_is_no_comma c : isSpace c = true → (c =? COMMA) = false.
Proof. intros Hc. destruct (Z.eqb_spec c COMMA) as [->|]; [now vm_compute in Hc|done]. Qed.

Lemma removeCommas_spaces ws :
  Forall (λ c, isSpace c = true) ws → removeCommas ws = ws.
Proof.
  induction 1 as [|c ws Hc _ IH]; [done|].
  now rewrite removeCommas_cons, (space_is_no_comma c Hc), IH.
Qed.

Lemma flushRun_spaces run :
  Forall (λ c, isSpace c = true) run → Forall (λ c, isSpace c = true) (flushRun [] run).
Proof.
  intros Hrun. destruct (flushRun_cases [] run) as [->|[(w & Hw & ->)| ->]]; [done| |done].
  rewrite Forall_forall in Hrun. repeat constructor. auto.
Qed.

Lemma replaceRuns_commas run s :
  Forall (λ c, isSpace c = true) run →
  replaceRuns true [] run s = removeCommas (replaceRuns false [] run s).
Proof.
  revert run. induction s as [|a s IH]; intros run Hrun; cbn [replaceRuns andb].
  - now rewrite removeCommas_spaces by now apply flushRun_spaces.
  - destruct (isSpace a) eqn:Ha.
    + apply IH. apply Forall_app. split; [done|now repeat constructor].
    + rewrite !removeCommas_app, removeCommas_spaces by now apply flushRun_spaces.
      rewrite (IH []) by done. f_equal. f_equal.
      rewrite removeCommas_cons. now destruct (a =? COMMA).
Qed.

Lemma dotStar_commas l : dotStar (removeCommas l) = removeCommas (dotStar l).
Proof.
  induction l as [|c l IH]; [done|].
  rewrite removeCommas_cons. cbn [dotStar].
  destruct (Z.eqb_spec c COMMA) as [->|Hc].
  - change (isLineTerminator COMMA) with false. cbv iota.
    rewrite (removeCommas_cons COMMA). now rewrite IH.
  - cbn [dotStar]. destruct (isLineTerminator c); [done|].
    rewrite removeCommas_cons, IH. now destruct (Z.eqb_spec c COMMA).
Qed.

Lemma upToLastHyphen_commas l :
  upToLastHyphen (removeCommas l) = removeCommas <$> upToLastHyphen l.
Proof.
  induction l as [|c l IH]; [done|].
  rewrite removeCommas_cons. cbn [upToLastHyphen].
  destruct (Z.eqb_spec c COMMA) as [->|Hc].
  - rewrite IH. destruct (upToLastHyphen l) as [p|]; [|done].
    cbn [fmap option_fmap option_map]. now rewrite removeCommas_cons.
  - cbn [upToLastHyphen]. rewrite IH.
    destruct (upToLastHyphen l) as [p|]; cbn [fmap option_fmap option_map].
    + rewrite removeCommas_cons. now destruct (Z.eqb_spec c COMMA).
    + now destruct (c =? HYPHEN).
Qed.

Lemma execFirstLine_commas l :
  execFirstLine (removeCommas l) = removeCommas <$> execFirstLine l.
Proof.
  induction l as [|c l IH]; [done|].
  rewrite removeCommas_cons. destruct (Z.eqb_spec c COMMA) as [->|Hc].
  - rewrite IH. cbn [execFirstLine dotStar].
    change (isLineTerminator COMMA) with false. cbv iota. cbn [upToLastHyphen].
    destruct (upToLastHyphen (dotStar l)) as [p|] eqn:Hp.
    + rewrite (execFirstLine_here _ _ Hp). cbn [fmap option_fmap option_map].
      now rewrite removeCommas_cons.
    + reflexivity.
  - assert (upToLastHyphen (dotStar (c :: removeCommas l))
            = removeCommas <$> upToLastHyphen (dotStar (c :: l))) as Hhere.
    { rewrite <- upToLastHyphen_commas, <- dotStar_commas, removeCommas_cons.
      now destruct (Z.eqb_spec c COMMA). }
    cbn [execFirstLine]. rewrite Hhere, IH.
    now destruct (upToLastHyphen (dotStar (c :: l))).
Qed.

Lemma trimStart_spaces ws : Forall (λ c, isSpace c = true) ws → trimStart ws = [].
Proof. induction 1 as [|c ws Hc _ IH]; simpl; [done|]. now rewrite Hc. Qed.

Lemma trimStart_strip ws l :
  Forall (λ c, isSpace c = true) ws → trimStart (ws ++ l) = trimStart l.
Proof. induction 1 as [|c ws Hc _ IH]; simpl; [done|]. now rewrite Hc. Qed.

Lemma trimEnd_strip l ws :
  Forall (λ c, isSpace c = true) ws → trimEnd (l ++ ws) = trimEnd l.
Proof.
  intros Hws. unfold trimEnd. rewrite reverse_app, trimStart_strip; [done|].
  now apply Forall_reverse.
Qed.

Lemma trim_strip a l b :
  Forall (λ c, isSpace c = true) a → Forall (λ c, isSpace c = true) b →
  trim (a ++ l ++ b) = trim l.
Proof.
  intros Ha Hb. unfold trim. rewrite trimStart_strip by done. clear a Ha.
  induction l as [|c l IH]; cbn [app trimStart].
  - now rewrite trimStart_spaces.
  - destruct (isSpace c); [exact IH|].
    exact (trimEnd_strip (c :: l) b Hb).
Qed.

(** X14. The date of the earlier scripts is the date of the pipeline
    script with its commas taken out and trimmed again: the two versions
    of [getDate] differ in nothing else. *)
Theorem earlier_date_is_the_date_without_commas dateString :
  Sites.getDate dateString = trim (removeCommas (getDate dateString)).
Proof.
  unfold Sites.getDate, getDate.
  rewrite replaceRuns_commas, execFirstLine_commas by done.
  destruct (execFirstLine (replaceRuns false [] [] dateString)) as [m|];
    cbn [fmap option_fmap option_map]; [|done].
  destruct (trim_split m) as (a & b & Hm & Ha & Hb).
  rewrite Hm at 1.
  rewrite !removeCommas_app, (removeCommas_spaces a), (removeCommas_spaces b) by done.
  now apply trim_strip.
Qed.

(** ** The name variations *)

Lemma splitOn_sep sep cur a r :
  sep ∉ a → splitOn sep cur (a ++ sep :: r) = (cur ++ a) :: splitOn sep [] r.
Proof.
  revert cur. induction a as [|c a IH]; intros cur Ha; cbn [app splitOn].
  - now rewrite Z.eqb_refl, app_nil_r.
  - apply not_elem_of_cons in Ha as [Hc Ha].
    destruct (Z.eqb_spec c sep) as [->|_]; [done|].
    now rewrite IH, <- app_assoc.
Qed.

Lemma splitOn_nonempty sep cur s : splitOn sep cur s ≠ [].
Proof.
  revert cur. induction s as [|c s IH]; intros cur; cbn [splitOn]; [done|].
  destruct (c =? sep); [done|apply IH].
Qed.

Lemma last_cons_nonempty {A} (x : A) l : l ≠ [] → last (x :: l) = last l.
Proof. now destruct l. Qed.

Lemma splitOn_last sep cur pre b :
  sep ∉ b → last (splitOn sep cur (pre ++ sep :: b)) = Some b.
Proof.
  intros Hb. revert cur. induction pre as [|c pre IH]; intros cur; cbn [app splitOn].
  - rewrite Z.eqb_refl, splitOn_no_sep by done. reflexivity.
  - destruct (c =? sep); [|apply IH].
    rewrite last_cons_nonempty by apply splitOn_nonempty. apply IH.
Qed.

Lemma splitOn_two sep cur pre b :
  (2 ≤ length (splitOn sep cur (pre ++ sep :: b)))%nat.
Proof.
  revert cur. induction pre as [|c pre IH]; intros cur; cbn [app splitOn].
  - rewrite Z.eqb_refl. cbn [length].
    pose proof (splitOn_nonempty sep [] b). destruct (splitOn sep [] b); [done|simpl; lia].
  - destruct (c =? sep); [|apply IH]. cbn [length]. specialize (IH []). lia.
Qed.

(** X15. For a name of several words the first variation, which [main]
    sends to the sites as the last name, is the text after the last
    space, and the fourth one is the text before the first space. A name
    that ends with a space therefore has the empty string as its last
    name. *)
Theorem last_name_is_the_text_after_the_last_space first rest pre last :
  SPACE ∉ first → SPACE ∉ last →
  first ++ SPACE :: rest = pre ++ SPACE :: last →
  NameSearch.getNameVariations (pre ++ SPACE :: last) !! 0%nat = Some last
  ∧ NameSearchMain.lastName (pre ++ SPACE :: last) = last
  ∧ NameSearch.getNameVariations (pre ++ SPACE :: last) !! 3%nat = Some first
  ∧ length (NameSearch.getNameVariations (pre ++ SPACE :: last)) = 5%nat.
Proof.
  intros Hfirst Hlast Hname.
  assert (NameSearch.getNameVariations (pre ++ SPACE :: last)
          = [ last;
              join SPACE (sliceLast2 (split SPACE (pre ++ SPACE :: last)));
              first ++ SPACE :: last; first; pre ++ SPACE :: last ]) as Hv.
  { unfold NameSearch.getNameVariations, split.
    pose proof (splitOn_two SPACE [] pre last) as Hlen.
    assert (head (splitOn SPACE [] (pre ++ SPACE :: last)) = Some first) as Hhead
      by now rewrite <- Hname, splitOn_sep.
    destruct (Nat.eqb_spec (length (splitOn SPACE [] (pre ++ SPACE :: last))) 1); [lia|].
    now rewrite splitOn_last, Hhead by done. }
  unfold NameSearchMain.lastName. now rewrite Hv.
Qed.

Lemma last_name_is_the_text_after_the_last_space_witness :
  NameSearchMain.lastName (js "Ahmad Ali" ++ SPACE :: []) = []
  ∧ NameSearchMain.lastName (js "Ahmad Ali" ++ SPACE :: js "Hassan") = js "Hassan".
Proof.
  split.
  - apply (last_name_is_the_text_after_the_last_space (js "Ahmad") (js "Ali ")
             (js "Ahmad Ali") []); [|by intros ?%elem_of_nil|reflexivity].
    vm_compute. intros Hin.
    repeat (apply elem_of_cons in Hin as [Hin|Hin]; [done|]).
    now apply elem_of_nil in Hin.
  - apply (last_name_is_the_text_after_the_last_space (js "Ahmad") (js "Ali Hassan")
             (js "Ahmad Ali") (js "Hassan")); [| |reflexivity];
      vm_compute; intros Hin;
      repeat (apply elem_of_cons in Hin as [Hin|Hin]; [done|]);
      now apply elem_of_nil in Hin.
Defined.

(** X16. For a name of two words the variations are the second word, the
    name, the name again, the first word and the name once more; [main]
    keeps each once, in that order, so it counts two or three terms. *)
Theorem two_word_name_has_three_terms first last :
  SPACE ∉ first → SPACE ∉ last →
  NameSearch.getNameVariations (first ++ SPACE :: last)
  = [ last; first ++ SPACE :: last; first ++ SPACE :: last; first;
      first ++ SPACE :: last ]
  ∧ NameSearchMain.uniqueVariations (first ++ SPACE :: last)
    = last :: (first ++ SPACE :: last) :: (if decide (first = last) then [] else [first]).
Proof.
  intros Hfirst Hlast.
  assert (NameSearch.getNameVariations (first ++ SPACE :: last)
          = [ last; first ++ SPACE :: last; first ++ SPACE :: last; first;
              first ++ SPACE :: last ]) as Hv.
  { unfold NameSearch.getNameVariations, split.
    now rewrite splitOn_sep, splitOn_no_sep by done. }
  split; [done|].
  unfold NameSearchMain.uniqueVariations. rewrite Hv.
  assert (first ++ SPACE :: last ≠ last) as Hne1.
  { intros E%(f_equal length). rewrite length_app in E. simpl in E. lia. }
  assert (first ++ SPACE :: last ≠ first) as Hne2.
  { intros E%(f_equal length). rewrite length_app in E. simpl in E. lia. }
  set (name := first ++ SPACE :: last) in *.
  cbn [NameSearchMain.setOrder].
  rewrite (decide_False (P := last ∈ [])) by apply not_elem_of_nil.
  rewrite (decide_False (P := name ∈ [last]))
    by (intros E; apply list_elem_of_singleton in E; done).
  rewrite (decide_True (P := name ∈ [name; last])) by left.
  destruct (decide (first = last)) as [->|Hfl].
  - rewrite (decide_True (P := last ∈ [name; last])) by (right; left).
    now rewrite (decide_True (P := name ∈ [name; last])) by left.
  - rewrite (decide_False (P := first ∈ [name; last])).
    + now rewrite (decide_True (P := name ∈ [first; name; last])) by (right; left).
    + intros E. apply elem_of_cons in E as [E|E]; [done|].
      apply list_elem_of_singleton in E. done.
Qed.

Lemma two_word_name_has_three_terms_witness :
  NameSearchMain.uniqueVariations (js "Ahmad" ++ SPACE :: js "Hassan")
  = [js "Hassan"; js "Ahmad" ++ SPACE :: js "Hassan"; js "Ahmad"].
Proof.
  apply (two_word_name_has_three_terms (js "Ahmad") (js "Hassan"));
    vm_compute; intros Hin;
    repeat (apply elem_of_cons in Hin as [Hin|Hin]; [done|]);
    now apply elem_of_nil in Hin.
Defined.

(** ** The test of the headless script *)








(** X18. The headless script drops every article whose date string has
    fewer than three words: the empty string that [getDate] returns for
    a field without a hyphen, a single word, or two words. *)
Theorem grab_drops_short_dates a b :
  SPACE ∉ a → SPACE ∉ b →
  Headless.onOrAfterOctober2023 a = false
  ∧ Headless.onOrAfterOctober2023 (a ++ SPACE :: b) = false.
Proof.
  intros Ha Hb. unfold Headless.onOrAfterOctober2023, split. split.
  - now rewrite splitOn_no_sep.
  - now rewrite splitOn_sep, splitOn_no_sep.
Qed.

Lemma grab_drops_short_dates_witness :
  Headless.onOrAfterOctober2023 (js "January") = false
  ∧ Headless.onOrAfterOctober2023 (js "January" ++ SPACE :: js "2024") = false.
Proof.
  apply (grab_drops_short_dates (js "January") (js "2024"));
    vm_compute; intros Hin;
    repeat (apply elem_of_cons in Hin as [Hin|Hin]; [done|]);
    now apply elem_of_nil in Hin.
Defined.

(** ** The scans of the earlier scripts *)

Lemma reduceLinks_eq `{Runtime} articles acc flag :
  Sites.reduceLinks articles (acc, flag)
  = (λ ps, (acc ++ List.filter afterCutoff ps,
            flag || negb (forallb afterCutoff ps)))
      <$> mapM earlierSummary articles.
Proof.
  revert acc flag. induction articles as [|a t IH]; intros acc flag.
  - cbn. now rewrite app_nil_r, orb_false_r.
  - change (mapM earlierSummary (a :: t))
      with (earlierSummary a ≫= λ y, mapM earlierSummary t ≫= λ k, mret (y :: k)).
    cbn [Sites.reduceLinks Sites.linkStep].
    assert (earlierSummary a
            = (λ d, {| p_link := apex ++ hrefString (anchorHref a);
                       p_headline := trim <$> h3Text a;
                       p_date := Sites.getDate d |}) <$> dateText a) as ->
      by reflexivity.
    destruct (dateText a) as [d|]; [|done].
    cbn [fmap option_fmap option_map mbind option_bind].
    set (p := {| p_link := apex ++ hrefString (anchorHref a);
                 p_headline := trim <$> h3Text a;
                 p_date := Sites.getDate d |}).
    change (numGt (dateTime (Sites.getDate d)) (dateTime (js "October 1, 2023")))
      with (afterCutoff p).
    destruct (afterCutoff p) eqn:Hr; rewrite IH;
      destruct (mapM earlierSummary t) as [ps|];
      cbn [fmap option_fmap option_map mbind option_bind mret option_ret
           List.filter forallb];
      try reflexivity; rewrite Hr.
    + cbn [andb]. now rewrite <- app_assoc.
    + cbn [andb negb]. now rewrite orb_true_r.
Qed.

(** X19. [getLinksFromRoot] of the earlier script throws when an entry
    of the page has no date field, wherever the entry stands; otherwise
    it returns, in page order, the summaries whose date, read without
    commas, is after the cutoff. *)
Theorem earlier_scan_returns_the_links_after_the_cutoff `{Runtime} html :
  Sites.getLinksFromRoot html
  = List.filter afterCutoff <$> mapM earlierSummary (featured html).
Proof.
  unfold Sites.getLinksFromRoot. rewrite reduceLinks_eq.
  now destruct (mapM earlierSummary (featured html)).
Qed.

Lemma payloads_eq links acc :
  Headless.payloads links acc
  = (λ ps, acc ++ List.filter (λ p, Headless.onOrAfterOctober2023 p.2) ps)
      <$> mapM grabPayload links.
Proof.
  revert acc. induction links as [|l t IH]; intros acc.
  - cbn. now rewrite app_nil_r.
  - change (mapM grabPayload (l :: t))
      with (grabPayload l ≫= λ y, mapM grabPayload t ≫= λ k, mret (y :: k)).
    cbn [Headless.payloads].
    assert (grabPayload l
            = (λ ds, (Headless.s_headline l, Headless.s_link l, Sites.getDate ds))
                <$> Headless.date_string l) as -> by reflexivity.
    destruct (Headless.date_string l) as [ds|]; [|done].
    cbn [fmap option_fmap option_map mbind option_bind].
    destruct (Headless.onOrAfterOctober2023 (Sites.getDate ds)) eqn:Hk; rewrite IH;
      destruct (mapM grabPayload t) as [ps|];
      cbn [fmap option_fmap option_map mbind option_bind mret option_ret
           List.filter snd];
      try reflexivity; rewrite Hk; [|reflexivity].
    now rewrite <- app_assoc.
Qed.

(** X20. The [reduce] of [grab] throws when a link has no date string,
    wherever the link stands; otherwise it returns, in page order, the
    links whose date passes the test, each with its headline, its link
    and the date read off the string. *)
Theorem grab_returns_the_kept_links_in_order links :
  Headless.payloads links []
  = List.filter (λ p, Headless.onOrAfterOctober2023 p.2) <$> mapM grabPayload links.
Proof. rewrite payloads_eq. now destruct (mapM grabPayload links). Qed.
